(** * zerologr: a logr.Logger on top of zerolog

    Shallow embedding of the package [zerologr] and proofs of its
    specification.  The package exists in two revisions in the source tree:

    - [src/unnamed/part_001], the revision with the named constants
      [debugVerbosity] and [traceVerbosity] and a struct field [verbosity];
      it is the one the top-level definitions of this file translate;
    - [src/zerologr.go], a revision whose [Info] and [Enabled] differ (the
      struct field is called [level] there); these two methods are translated
      in [Module ZerologrGo] below.  Every other function ([clone],
      [copySlice], [add], [Error], [V], [WithName], [WithValues],
      [NewWithOptions]) has the same body in both files.

    zerolog itself (the sink) is not part of the package.  It is represented
    at its API boundary, as the collaborator the specification describes: it
    hands out an event builder for each of the levels Info, Debug, Trace and
    Error and exposes its global minimum level.  An event is the sequence of
    builder methods the package invoked on it, and the sink's output is the
    sequence of events that were finalised with [Msg].  What zerolog does
    with a finalised event (formatting, its own level filter) is not
    modelled.

    Slices are headers into a store of backing arrays, with [append]
    writing in place when the capacity suffices, so that the sharing of an
    array between instances is expressible. *)

From stdpp Require Import base list strings.
From Stdlib Require Import ZArith Lia.

(** ** Go values *)

(** [interface{}]: a dynamically typed value.  The package only ever
    inspects a value through the type assertion [key.(string)]. *)
#[warnings="-register-all"] Inductive value : Type :=
| VNil
| VString (s : string)
| VInt (n : Z)
| VBool (b : bool)
| VSlice (vs : list value).

(** [keyStr, isString := key.(string)] *)
Definition assert_string (key : value) : option string :=
  match key with
  | VString s => Some s
  | _ => None
  end.

(** The [error] interface: [nil], or an error carrying a text. *)
Inductive go_error : Type :=
| nil_error
| errors_New (text : string).

(** ** The sink: zerolog at its API boundary *)

Module zerolog.

(** [type Level int8] and its constants, with the values they have in
    zerolog v1.17.2, the version [go.mod] requires. *)
Definition Level := Z.
Definition DebugLevel : Level := 0%Z.
Definition InfoLevel : Level := 1%Z.
Definition WarnLevel : Level := 2%Z.
Definition ErrorLevel : Level := 3%Z.
Definition FatalLevel : Level := 4%Z.
Definition PanicLevel : Level := 5%Z.
Definition NoLevel : Level := 6%Z.
Definition Disabled : Level := 7%Z.
Definition TraceLevel : Level := (-1)%Z.

(** A [*zerolog.Logger]: the identity of a sink. *)
Inductive Logger : Type :=
| Stderr_Timestamp
| Custom (id : nat).

(** One builder method invoked on an event. *)
Inductive call : Type :=
| CInt (key : string) (i : Z)
| CStr (key : string) (s : string)
| CInterface (key : string) (v : value)
| CAnErr (key : string) (err : go_error)
| CErr (err : go_error)
| CStack.

(** A [*zerolog.Event] under construction. *)
Record Event : Type := mkEvent {
  ev_sink : Logger;
  ev_level : Level;
  ev_calls : list call
}.

Definition invoke (c : call) (e : Event) : Event :=
  mkEvent (ev_sink e) (ev_level e) (ev_calls e ++ [c]).

Definition Int (key : string) (i : Z) := invoke (CInt key i).
Definition Str (key : string) (s : string) := invoke (CStr key s).
Definition Interface (key : string) (v : value) := invoke (CInterface key v).
Definition AnErr (key : string) (err : go_error) := invoke (CAnErr key err).
Definition Err (err : go_error) := invoke (CErr err).
Definition Stack := invoke CStack.

(** [l.Info()], [l.Debug()], [l.Trace()], [l.Error()] *)
Definition newEvent (l : Logger) (lvl : Level) : Event := mkEvent l lvl [].

(** What [e.Msg(msg)] hands to the sink. *)
Record entry : Type := mkEntry {
  ent_sink : Logger;
  ent_level : Level;
  ent_calls : list call;
  ent_msg : string
}.

Definition finalize (e : Event) (msg : string) : entry :=
  mkEntry (ev_sink e) (ev_level e) (ev_calls e) msg.

End zerolog.

Import zerolog.

(** ** Slices and the store of backing arrays *)

(** A slice header.  The package never reslices, so the pointer is the
    address of a backing array. *)
Record slice : Type := mkSlice {
  ptr : nat;
  len : nat;
  cap : nat
}.

Definition nil_slice : slice := mkSlice 0 0 0.

(** The store: one backing array per address. *)
Abbreviation store := (list (list value)).

(** The elements [s[0], ..., s[len(s)-1]]. *)
Definition slice_read (s : slice) (h : store) : list value :=
  take (len s) (default [] (h !! ptr s)).

(** [make([]interface{}, n)]: a fresh zeroed array. *)
Definition make (n : nat) (h : store) : slice * store :=
  (mkSlice (length h) n n, h ++ [replicate n VNil]).

(** [copy(dst, src)] writes [min(len(dst), len(src))] elements into the
    array of [dst]. *)
Definition copy (dst src : slice) (h : store) : store :=
  let n := len dst `min` len src in
  let data := take n (slice_read src h) in
  alter (fun arr => data ++ drop n arr) (ptr dst) h.

Section Append.

(** The capacity the runtime chooses when [append] has to grow a slice of
    capacity [old] to hold [need] elements. *)
Variable growcap : nat -> nat -> nat.

(** [append(s, xs...)]: in place when the capacity suffices, otherwise in
    a fresh array. *)
Definition append (s : slice) (xs : list value) (h : store) : slice * store :=
  let need := len s + length xs in
  if decide (need <= cap s) then
    (mkSlice (ptr s) need (cap s),
     alter (fun arr => take (len s) arr ++ xs ++ drop need arr) (ptr s) h)
  else
    let c := growcap (cap s) need in
    (mkSlice (length h) need c,
     h ++ [slice_read s h ++ xs ++ replicate (c - need) VNil]).

End Append.

(** ** The world a call runs in *)

Record world : Type := mkWorld {
  GlobalLevel : Level;
  heap : store;
  output : list entry
}.

Definition set_heap (h : store) (w : world) : world :=
  mkWorld (GlobalLevel w) h (output w).

Definition set_GlobalLevel (g : Level) (w : world) : world :=
  mkWorld g (heap w) (output w).

(** [e.Msg(msg)] *)
Definition Msg (e : Event) (msg : string) (w : world) : world :=
  mkWorld (GlobalLevel w) (heap w) (output w ++ [finalize e msg]).

(** ** The package ([src/unnamed/part_001]) *)

Definition debugVerbosity : Z := 2.
Definition traceVerbosity : Z := 8.

Record Options : Type := mkOptions {
  Name : string;
  opt_Logger : option Logger
}.

Record logger : Type := mkLogger {
  l : Logger;
  verbosity : Z;
  prefix : string;
  values : slice
}.

(** [NewWithOptions], lines 37-48.  Without a sink in the options the
    default one is used: standard error with a timestamp. *)
Definition NewWithOptions (opts : Options) : logger :=
  let sink :=
    match opt_Logger opts with
    | None => Stderr_Timestamp
    | Some s => s
    end in
  mkLogger sink 0 (Name opts) nil_slice.

Definition New : logger := NewWithOptions (mkOptions "" None).

(** [copySlice], lines 72-76. *)
Definition copySlice (in_ : slice) (h : store) : slice * store :=
  let '(out, h1) := make (len in_) h in
  (out, copy out in_ h1).

(** [clone], lines 66-70. *)
Definition clone (lg : logger) (h : store) : logger * store :=
  let '(vs, h1) := copySlice (values lg) h in
  (mkLogger (l lg) (verbosity lg) (prefix lg) vs, h1).

Definition odd_arguments : go_error :=
  errors_New "odd number of arguments passed as key-value pairs for logging".

Definition non_string_key : go_error :=
  errors_New "non-string key argument passed to logging, ignoring all later arguments".

(** The loop of [add], lines 89-104; the list is [keysAndVals[i:]] and
    [i += 2] moves on to its second tail.  [None] is the run-time panic of
    reading [keysAndVals[i+1]] past the end. *)
Fixpoint add_loop (e : Event) (keysAndVals : list value) : option Event :=
  match keysAndVals with
  | [] => Some e
  | [_] => None
  | key :: val :: rest =>
      match assert_string key with
      | None =>
          Some (Stack (AnErr "zerologr-err" non_string_key
                         (Interface "invalid key" key e)))
      | Some keyStr => add_loop (Interface keyStr val e) rest
      end
  end.

(** [add], lines 79-105. *)
Definition add (e : Event) (keysAndVals : list value) : option Event :=
  if decide (length keysAndVals `mod` 2 <> 0) then
    Some (Stack (AnErr "zerologr-err" odd_arguments
                   (Interface "args" (VSlice keysAndVals) e)))
  else add_loop e keysAndVals.

Definition set_verbosity (v : Z) (lg : logger) : logger :=
  mkLogger (l lg) v (prefix lg) (values lg).

Definition set_prefix (p : string) (lg : logger) : logger :=
  mkLogger (l lg) (verbosity lg) p (values lg).

Definition set_values (vs : slice) (lg : logger) : logger :=
  mkLogger (l lg) (verbosity lg) (prefix lg) vs.

(** The elements of [l.values]. *)
Definition fields (lg : logger) (w : world) : list value :=
  slice_read (values lg) (heap w).

(** [Enabled], lines 127-140; [zerolog.GlobalLevel()] is read from the
    world the call runs in. *)
Definition Enabled (lg : logger) (w : world) : bool :=
  let lvl :=
    if decide (verbosity lg < debugVerbosity)%Z then InfoLevel
    else if decide (verbosity lg < traceVerbosity)%Z then DebugLevel
    else TraceLevel in
  if decide (lvl < GlobalLevel w)%Z then false else true.

(** [Info], lines 107-125.  [None] is a panic reaching the caller. *)
Definition Info (lg : logger) (msg : string) (keysAndVals : list value)
    (w : world) : option world :=
  if Enabled lg w then
    let e :=
      if decide (verbosity lg < debugVerbosity)%Z then newEvent (l lg) InfoLevel
      else if decide (verbosity lg < traceVerbosity)%Z then newEvent (l lg) DebugLevel
      else newEvent (l lg) TraceLevel in
    let e := Int "verbosity" (verbosity lg) e in
    let e := if decide (prefix lg <> "") then Str "name" (prefix lg) e else e in
    e ← add e (fields lg w);
    e ← add e keysAndVals;
    Some (Msg e msg w)
  else Some w.

(** [Error], lines 142-150. *)
Definition Error (lg : logger) (err : go_error) (msg : string)
    (keysAndVals : list value) (w : world) : option world :=
  let e := Err err (newEvent (l lg) ErrorLevel) in
  let e := if decide (prefix lg <> "") then Str "name" (prefix lg) e else e in
  e ← add e (fields lg w);
  e ← add e keysAndVals;
  Some (Msg e msg w).

(** [V], lines 152-156. *)
Definition V (lg : logger) (v : Z) (w : world) : logger * world :=
  let '(new, h) := clone lg (heap w) in
  let new := set_verbosity v new in
  (new, set_heap h w).

(** [WithName], lines 161-168. *)
Definition WithName (lg : logger) (name : string) (w : world) : logger * world :=
  let '(new, h) := clone lg (heap w) in
  let new :=
    if decide (0 < String.length (prefix lg))
    then set_prefix (prefix lg +:+ "/") new else new in
  let new := set_prefix (prefix new +:+ name) new in
  (new, set_heap h w).

Section WithValues.

Variable growcap : nat -> nat -> nat.

(** [WithValues], lines 169-173. *)
Definition WithValues (lg : logger) (kvList : list value) (w : world)
    : logger * world :=
  let '(new, h) := clone lg (heap w) in
  let '(vs, h) := append growcap (values new) kvList h in
  let new := set_values vs new in
  (new, set_heap h w).

End WithValues.

(** ** The revision in [src/zerologr.go]

    Its [logger] has the same four fields, the second one called [level];
    [verbosity] stands for it here. *)
Module ZerologrGo.

(** [Enabled], lines 119-132 of [src/zerologr.go]. *)
Definition Enabled (lg : logger) (w : world) : bool :=
  let lvl :=
    if decide (verbosity lg < 2)%Z then InfoLevel
    else if decide (verbosity lg < 7)%Z then DebugLevel
    else TraceLevel in
  if decide (lvl < GlobalLevel w)%Z then false else true.

(** [Info], lines 107-117 of [src/zerologr.go]. *)
Definition Info (lg : logger) (msg : string) (keysAndVals : list value)
    (w : world) : option world :=
  if Enabled lg w then
    let e := Int "level" (verbosity lg) (newEvent (l lg) InfoLevel) in
    let e := if decide (prefix lg <> "") then Str "name" (prefix lg) e else e in
    e ← add e (fields lg w);
    e ← add e keysAndVals;
    Some (Msg e msg w)
  else Some w.

End ZerologrGo.

(** ** The specification's vocabulary *)

(** The three severity tiers of the specification and the zerolog level
    each one stands for. *)
Inductive Tier : Type := INFO | DEBUG | TRACE.

Definition tier_level (t : Tier) : Level :=
  match t with
  | INFO => InfoLevel
  | DEBUG => DebugLevel
  | TRACE => TraceLevel
  end.

(** tier(v) = INFO if v < 2, DEBUG if 2 <= v < 8, TRACE if v >= 8. *)
Definition tier (v : Z) : Tier :=
  if (v <? 2)%Z then INFO
  else if (v <? 8)%Z then DEBUG
  else TRACE.

(** A flat alternating sequence [key1, val1, key2, val2, ...] whose keys
    are all text. *)
Definition flat (ps : list (string * value)) : list value :=
  ps ≫= (fun p => [VString p.1; p.2]).

(** One independent field per pair, in order. *)
Definition pair_fields (ps : list (string * value)) : list call :=
  (fun p => CInterface p.1 p.2) <$> ps.

(** The diagnostic of an odd number of arguments. *)
Definition odd_diagnostic (keysAndVals : list value) : list call :=
  [CInterface "args" (VSlice keysAndVals);
   CAnErr "zerologr-err" odd_arguments;
   CStack].

(** The diagnostic of a key that is not text. *)
Definition key_diagnostic (key : value) : list call :=
  [CInterface "invalid key" key;
   CAnErr "zerologr-err" non_string_key;
   CStack].

(** What one run of [add] over [keysAndVals] invokes on an event. *)
Definition encoded (keysAndVals : list value) : list call :=
  match add (newEvent Stderr_Timestamp InfoLevel) keysAndVals with
  | Some e => ev_calls e
  | None => []
  end.

(** The ["name"] field, present iff the name is not empty. *)
Definition name_field (lg : logger) : list call :=
  if decide (prefix lg = "") then [] else [CStr "name" (prefix lg)].

(** ** Auxiliary notions of the proofs *)

(** [extend e cs]: the event [e] after the further invocations [cs]. *)
Definition extend (e : Event) (cs : list call) : Event :=
  mkEvent (ev_sink e) (ev_level e) (ev_calls e ++ cs).

(** The header [s] describes an array of the store [h]. *)
Definition slice_ok (h : store) (s : slice) : Prop :=
  len s <= cap s /\ cap s <= length (default [] (h !! ptr s)).

(** [s] is empty or points into [h]. *)
Definition allocated (h : store) (s : slice) : Prop :=
  len s = 0 \/ ptr s < length h.

(** Every array of [h] is in [h'], unchanged. *)
Definition keeps (h h' : store) : Prop :=
  length h <= length h' /\ forall p, p < length h -> h' !! p = h !! p.

(** ** Concrete instances for the examples *)

(** One growth policy the runtime may follow: twice the old capacity, or
    what is needed when that is more. *)
Definition double_or_need (old need : nat) : nat :=
  if decide (2 * old < need) then need else 2 * old.

(** A root given three values and then a fourth: its slice has length 4
    and capacity 6, so an [append] on it without a copy would write into
    the array it shares. *)
Definition example_root : logger * world :=
  let '(r, w) :=
    WithValues double_or_need New [VString "x"; VInt 0; VString "y"]
      (mkWorld InfoLevel [] []) in
  WithValues double_or_need r [VString "z"] w.

(** A root given one value only, the accumulated fields of odd length. *)
Definition example_odd : logger * world :=
  WithValues double_or_need New [VString "orphan"] (mkWorld InfoLevel [] []).

(** A named instance with one accumulated pair and verbosity 3, at global
    level Debug: [New().WithName("app").WithValues("req", 7).V(3)]. *)
Definition example_app : logger * world :=
  let '(a, w1) := WithName New "app" (mkWorld DebugLevel [] []) in
  let '(b, w2) := WithValues double_or_need a [VString "req"; VInt 7] w1 in
  V b 3 w2.

(** ** Chains of derivations *)

(** One call of the front interface that derives an instance. *)
Inductive derivation : Type :=
| DV (v : Z)
| DWithName (name : string)
| DWithValues (kvList : list value).

Section Derive.

Variable growcap : nat -> nat -> nat.

Definition derive1 (d : derivation) (lg : logger) (w : world) : logger * world :=
  match d with
  | DV v => V lg v w
  | DWithName name => WithName lg name w
  | DWithValues kvList => WithValues growcap lg kvList w
  end.

(** [derive ds lg w]: the calls [ds] made one on the result of the other,
    starting from [lg]. *)
Fixpoint derive (ds : list derivation) (lg : logger) (w : world) : logger * world :=
  match ds with
  | [] => (lg, w)
  | d :: ds' => let '(lg', w') := derive1 d lg w in derive ds' lg' w'
  end.

End Derive.

(** The values a chain hands to [WithValues], in order. *)
Definition appended (ds : list derivation) : list value :=
  ds ≫= (fun d => match d with DWithValues kvList => kvList | _ => [] end).

(** The verbosity after a chain: the argument of its last [V]. *)
Definition last_verbosity (v0 : Z) (ds : list derivation) : Z :=
  foldl (fun v d => match d with DV v' => v' | _ => v end) v0 ds.

(** A name extended by one segment, with the slash between two non-empty
    parts only when the first is not empty. *)
Definition join_name (p segment : string) : string :=
  if decide (p = "") then segment else (p +:+ "/") +:+ segment.

(** The name after a chain. *)
Definition named (p0 : string) (ds : list derivation) : string :=
  foldl (fun p d => match d with DWithName name => join_name p name | _ => p end)
    p0 ds.

(** A flat sequence of pairs whose keys are all text. *)
Definition well_formed (keysAndVals : list value) : Prop :=
  exists ps, keysAndVals = flat ps.

(** * Proofs *)

(** ** Events *)

Lemma invoke_extend c e : invoke c e = extend e [c].
Proof. reflexivity. Qed.

Lemma extend_extend e cs ds : extend (extend e cs) ds = extend e (cs ++ ds).
Proof. unfold extend; simpl. by rewrite (assoc_L (++)). Qed.

Lemma extend_nil e : extend e [] = e.
Proof. destruct e; unfold extend; simpl. by rewrite (right_id_L [] (++)). Qed.

Lemma extend_newEvent s lvl cs : extend (newEvent s lvl) cs = mkEvent s lvl cs.
Proof. reflexivity. Qed.

(** Induction two elements at a time, the way the loop of [add] walks. *)
Lemma list_pair_ind {A} (P : list A -> Prop) :
  P [] ->
  (forall x, P [x]) ->
  (forall x y xs, P xs -> P (x :: y :: xs)) ->
  forall xs, P xs.
Proof.
  intros Hnil Hone Hstep xs.
  cut (P xs /\ forall x, P (x :: xs)); [tauto |].
  induction xs as [| y ys [IH1 IH2]]; split; auto.
Qed.

(** ** [add] *)

Lemma mod2_SS n : S (S n) `mod` 2 = n `mod` 2.
Proof.
  replace (S (S n)) with (n + 1 * 2) by lia.
  apply Nat.Div0.mod_add.
Qed.

Lemma flat_cons k v ps : flat ((k, v) :: ps) = VString k :: v :: flat ps.
Proof. reflexivity. Qed.

Lemma length_flat ps : length (flat ps) = 2 * length ps.
Proof. induction ps as [| [k v] ps IH]; [done |]. rewrite flat_cons; simpl. lia. Qed.

(** The loop encodes a prefix of text-keyed pairs one field each and goes
    on with what follows. *)
Lemma add_loop_flat ps rest e :
  add_loop e (flat ps ++ rest) = add_loop (extend e (pair_fields ps)) rest.
Proof.
  revert e; induction ps as [| [k v] ps IH]; intros e.
  - by rewrite extend_nil.
  - rewrite flat_cons; simpl. rewrite IH. unfold Interface.
    by rewrite invoke_extend, extend_extend.
Qed.

(** Where the loop stops at a key that is not text. *)
Lemma add_loop_bad_key key val rest e :
  assert_string key = None ->
  add_loop e (key :: val :: rest) = Some (extend e (key_diagnostic key)).
Proof.
  intros Hkey; simpl. rewrite Hkey. unfold Stack, AnErr, Interface.
  by rewrite !invoke_extend, !extend_extend.
Qed.

(** What the loop invokes does not depend on the event it is given. *)
Lemma add_loop_extend kvs : forall e e0,
  add_loop e kvs = (fun e' => extend e (ev_calls e')) <$> add_loop (newEvent (ev_sink e0) (ev_level e0)) kvs.
Proof.
  induction kvs as [| x | key val rest IH] using list_pair_ind; intros e e0.
  - simpl. by rewrite extend_nil.
  - done.
  - destruct (assert_string key) as [keyStr |] eqn:Hkey.
    + simpl; rewrite Hkey.
      rewrite (IH (Interface keyStr val e) e0).
      rewrite (IH (Interface keyStr val (newEvent _ _)) e0).
      destruct (add_loop (newEvent (ev_sink e0) (ev_level e0)) rest) as [e' |]; [| done].
      simpl. f_equal. unfold Interface. by rewrite !invoke_extend, !extend_extend.
    + by rewrite !add_loop_bad_key.
Qed.

(** On an even number of arguments the loop never reads past the end. *)
Lemma add_loop_even kvs : forall e,
  length kvs `mod` 2 = 0 -> is_Some (add_loop e kvs).
Proof.
  induction kvs as [| x | key val rest IH] using list_pair_ind; intros e Hlen.
  - by eexists.
  - done.
  - simpl. destruct (assert_string key); [| by eexists].
    apply IH. by rewrite <- mod2_SS.
Qed.

Lemma add_odd e kvs :
  length kvs `mod` 2 <> 0 ->
  add e kvs = Some (extend e (odd_diagnostic kvs)).
Proof.
  intros Hodd. unfold add. rewrite decide_True by done.
  unfold Stack, AnErr, Interface.
  by rewrite !invoke_extend, !extend_extend.
Qed.

Lemma add_even e kvs :
  length kvs `mod` 2 = 0 -> add e kvs = add_loop e kvs.
Proof. intros Heven. unfold add. rewrite decide_False; [done | lia]. Qed.

(** [add] never panics. *)
Lemma add_total e kvs : is_Some (add e kvs).
Proof.
  destruct (decide (length kvs `mod` 2 = 0)) as [Heven | Hodd].
  - rewrite add_even by done. by apply add_loop_even.
  - rewrite add_odd by done. by eexists.
Qed.

(** [add] extends the event by [encoded], whatever the event. *)
Lemma add_encoded e kvs : add e kvs = Some (extend e (encoded kvs)).
Proof.
  unfold encoded.
  destruct (decide (length kvs `mod` 2 = 0)) as [Heven | Hodd].
  - rewrite !add_even by done.
    destruct (add_loop_even kvs (newEvent Stderr_Timestamp InfoLevel) Heven) as [e' He'].
    rewrite (add_loop_extend kvs e (newEvent Stderr_Timestamp InfoLevel)).
    simpl. by rewrite He'.
  - by rewrite !add_odd.
Qed.

Lemma encoded_odd kvs :
  length kvs `mod` 2 <> 0 -> encoded kvs = odd_diagnostic kvs.
Proof. intros Hodd. unfold encoded. by rewrite add_odd. Qed.

Lemma flat_even ps rest :
  length (flat ps ++ rest) `mod` 2 = length rest `mod` 2.
Proof.
  rewrite length_app, length_flat.
  replace (2 * length ps + length rest) with (length rest + length ps * 2) by lia.
  apply Nat.Div0.mod_add.
Qed.

Lemma encoded_flat ps : encoded (flat ps) = pair_fields ps.
Proof.
  unfold encoded. rewrite <- (right_id_L [] (++) (flat ps)).
  rewrite add_even by (by rewrite flat_even).
  by rewrite add_loop_flat.
Qed.

Lemma encoded_bad_key ps key val rest :
  assert_string key = None ->
  length rest `mod` 2 = 0 ->
  encoded (flat ps ++ key :: val :: rest) = pair_fields ps ++ key_diagnostic key.
Proof.
  intros Hkey Hrest. unfold encoded.
  rewrite add_even.
  - by rewrite add_loop_flat, add_loop_bad_key.
  - by rewrite flat_even, !length_cons, mod2_SS.
Qed.

Lemma Odd_mod2 n : Nat.Odd n -> n `mod` 2 <> 0.
Proof.
  intros [m ->]. replace (2 * m + 1) with (1 + m * 2) by lia.
  by rewrite Nat.Div0.mod_add.
Qed.

Lemma Even_mod2 n : Nat.Even n -> n `mod` 2 = 0.
Proof.
  intros [m ->]. replace (2 * m) with (0 + m * 2) by lia.
  by rewrite Nat.Div0.mod_add.
Qed.

(** Every sequence of even length is a run of text-keyed pairs, possibly
    followed by a pair whose key is not text and an even rest. *)
Lemma even_split kvs :
  length kvs `mod` 2 = 0 ->
  (exists ps, kvs = flat ps) \/
  (exists ps key val rest,
      kvs = flat ps ++ key :: val :: rest /\
      assert_string key = None /\
      Nat.Even (length rest)).
Proof.
  induction kvs as [| x | key val rest IH] using list_pair_ind; intros Hlen.
  - left. by exists [].
  - done.
  - rewrite !length_cons, mod2_SS in Hlen.
    destruct (assert_string key) as [keyStr |] eqn:Hkey.
    + destruct key; try done. injection Hkey as ->.
      destruct (IH Hlen) as [[ps ->] | (ps & k & v & r & -> & Hk & Hr)].
      * left. by exists ((keyStr, val) :: ps).
      * right. by exists ((keyStr, val) :: ps), k, v, r.
    + right. exists [], key, val, rest. repeat split; [done |].
      apply Nat.Div0.mod_divides in Hlen as [c ->]. by exists c.
Qed.

(** C3.  [add] never panics.  On an odd number of arguments it attaches the
    whole raw sequence under ["args"], the synthetic error ["zerologr-err"]
    with the text "odd number of arguments passed as key-value pairs for
    logging" and the call stack, and nothing else: no pair is encoded. *)
Theorem C3_add_odd_arity (e : Event) (keysAndVals : list value) :
  is_Some (add e keysAndVals) /\
  (Nat.Odd (length keysAndVals) ->
   add e keysAndVals =
   Some (extend e
     [CInterface "args" (VSlice keysAndVals);
      CAnErr "zerologr-err"
        (errors_New "odd number of arguments passed as key-value pairs for logging");
      CStack])).
Proof.
  split; [apply add_total |].
  intros Hodd. by apply add_odd, Odd_mod2.
Qed.

(** The specification's example [encodeFields(event, ["k1", 1, "k2"])]. *)
Lemma C3_add_odd_arity_witness :
  Nat.Odd (length [VString "k1"; VInt 1; VString "k2"]) /\
  add (newEvent Stderr_Timestamp InfoLevel) [VString "k1"; VInt 1; VString "k2"] =
  Some (mkEvent Stderr_Timestamp InfoLevel
    [CInterface "args" (VSlice [VString "k1"; VInt 1; VString "k2"]);
     CAnErr "zerologr-err"
       (errors_New "odd number of arguments passed as key-value pairs for logging");
     CStack]).
Proof.
  assert (Hodd : Nat.Odd (length [VString "k1"; VInt 1; VString "k2"])).
  { exists 1. reflexivity. }
  split; [exact Hodd |].
  exact (proj2 (C3_add_odd_arity (newEvent Stderr_Timestamp InfoLevel)
                  [VString "k1"; VInt 1; VString "k2"]) Hodd).
Defined.

(** C4.  On an even number of arguments: when the first key that is not
    text is [key], after the text-keyed pairs [ps], [add] encodes each pair
    of [ps] as a field of its own, attaches [key] under ["invalid key"], the
    synthetic error ["zerologr-err"] with the text "non-string key argument
    passed to logging, ignoring all later arguments" and the call stack, and
    ignores the offending pair's value and everything after it; when every
    key is text, each pair becomes a field of its own.  Every sequence of
    even length falls under one of the two cases. *)
Theorem C4_add_non_text_key (e : Event) :
  (forall ps key val rest,
      assert_string key = None ->
      Nat.Even (length rest) ->
      add e (flat ps ++ key :: val :: rest) =
      Some (extend e
        (pair_fields ps ++
         [CInterface "invalid key" key;
          CAnErr "zerologr-err"
            (errors_New "non-string key argument passed to logging, ignoring all later arguments");
          CStack]))) /\
  (forall ps, add e (flat ps) = Some (extend e (pair_fields ps))) /\
  (forall keysAndVals,
      Nat.Even (length keysAndVals) ->
      (exists ps, keysAndVals = flat ps) \/
      (exists ps key val rest,
          keysAndVals = flat ps ++ key :: val :: rest /\
          assert_string key = None /\
          Nat.Even (length rest))).
Proof.
  split; [| split].
  - intros ps key val rest Hkey Hrest.
    rewrite add_encoded, encoded_bad_key; auto using Even_mod2.
  - intros ps. by rewrite add_encoded, encoded_flat.
  - intros kvs Heven. by apply even_split, Even_mod2.
Qed.

(** The specification's example [encodeFields(event, [42, "v", "k2", "v2"])],
    and a well-formed one. *)
Lemma C4_add_non_text_key_witness :
  add (newEvent Stderr_Timestamp InfoLevel)
    [VInt 42; VString "v"; VString "k2"; VString "v2"] =
  Some (mkEvent Stderr_Timestamp InfoLevel
    [CInterface "invalid key" (VInt 42);
     CAnErr "zerologr-err"
       (errors_New "non-string key argument passed to logging, ignoring all later arguments");
     CStack]) /\
  add (newEvent Stderr_Timestamp InfoLevel)
    [VString "a"; VInt 1; VBool true; VNil; VString "k2"; VString "v2"] =
  Some (mkEvent Stderr_Timestamp InfoLevel
    [CInterface "a" (VInt 1);
     CInterface "invalid key" (VBool true);
     CAnErr "zerologr-err"
       (errors_New "non-string key argument passed to logging, ignoring all later arguments");
     CStack]).
Proof.
  assert (Heven : Nat.Even (length [VString "k2"; VString "v2"])).
  { exists 1. reflexivity. }
  split.
  - exact (proj1 (C4_add_non_text_key (newEvent Stderr_Timestamp InfoLevel))
             [] (VInt 42) (VString "v") [VString "k2"; VString "v2"]
             eq_refl Heven).
  - exact (proj1 (C4_add_non_text_key (newEvent Stderr_Timestamp InfoLevel))
             [("a", VInt 1)] (VBool true) VNil [VString "k2"; VString "v2"]
             eq_refl Heven).
Defined.

(** ** [Enabled] *)

Lemma tier_cases (v : Z) :
  ((v < 2)%Z /\ tier v = INFO) \/
  ((2 <= v < 8)%Z /\ tier v = DEBUG) \/
  ((8 <= v)%Z /\ tier v = TRACE).
Proof.
  unfold tier.
  destruct (Z.ltb_spec v 2); [by left |].
  destruct (Z.ltb_spec v 8); [right; left | right; right]; split; auto; lia.
Qed.

Lemma Enabled_tier lg w :
  Enabled lg w = bool_decide (GlobalLevel w <= tier_level (tier (verbosity lg)))%Z.
Proof.
  unfold Enabled, debugVerbosity, traceVerbosity.
  destruct (tier_cases (verbosity lg)) as [[Hv ->] | [[Hv ->] | [Hv ->]]]; simpl;
    repeat case_decide; try lia;
    symmetry; (apply bool_decide_eq_true_2 || apply bool_decide_eq_false_2); lia.
Qed.

(** The event builder [Info] selects is the one of the tier. *)
Lemma Info_builder lg :
  (if decide (verbosity lg < debugVerbosity)%Z then newEvent (l lg) InfoLevel
   else if decide (verbosity lg < traceVerbosity)%Z then newEvent (l lg) DebugLevel
   else newEvent (l lg) TraceLevel) =
  newEvent (l lg) (tier_level (tier (verbosity lg))).
Proof.
  unfold debugVerbosity, traceVerbosity.
  destruct (tier_cases (verbosity lg)) as [[Hv ->] | [[Hv ->] | [Hv ->]]]; simpl;
    repeat case_decide; try lia; done.
Qed.

Lemma name_field_extend lg e :
  (if decide (prefix lg <> "") then Str "name" (prefix lg) e else e) =
  extend e (name_field lg).
Proof.
  unfold name_field. destruct (decide (prefix lg = "")) as [Heq | Hne].
  - rewrite decide_False by (by intros ?). by rewrite extend_nil.
  - by rewrite decide_True.
Qed.

(** ** [Info] and [Error] *)

(** An enabled [Info] emits exactly one entry, built as follows. *)
Lemma Info_enabled lg msg kvs w :
  Enabled lg w = true ->
  Info lg msg kvs w =
  Some (mkWorld (GlobalLevel w) (heap w)
          (output w ++
           [mkEntry (l lg) (tier_level (tier (verbosity lg)))
              ([CInt "verbosity" (verbosity lg)] ++ name_field lg ++
               encoded (fields lg w) ++ encoded kvs)
              msg])).
Proof.
  intros Hen. unfold Info. rewrite Hen, Info_builder, name_field_extend.
  rewrite add_encoded. simpl. rewrite add_encoded. simpl.
  unfold Msg, finalize; simpl. by rewrite <- !(assoc_L (++)).
Qed.

Lemma Info_disabled lg msg kvs w :
  Enabled lg w = false -> Info lg msg kvs w = Some w.
Proof. intros Hdis. unfold Info. by rewrite Hdis. Qed.

(** [Error] emits exactly one entry, built as follows. *)
Lemma Error_entry lg err msg kvs w :
  Error lg err msg kvs w =
  Some (mkWorld (GlobalLevel w) (heap w)
          (output w ++
           [mkEntry (l lg) ErrorLevel
              ([CErr err] ++ name_field lg ++
               encoded (fields lg w) ++ encoded kvs)
              msg])).
Proof.
  unfold Error. rewrite name_field_extend.
  rewrite add_encoded. simpl. rewrite add_encoded. simpl.
  unfold Msg, finalize; simpl. by rewrite <- !(assoc_L (++)).
Qed.

(** [Enabled] of [src/unnamed/part_001] maps the verbosity to a tier by the thresholds 2 and 8
    (INFO below 2, DEBUG from 2 to 7, TRACE from 8 on; 7 is DEBUG) and
    answers true iff the tier's level is at or above the global minimum
    level of the world the call runs in. *)
Theorem Enabled_thresholds_part001 (lg : logger) (w : world) :
  debugVerbosity = 2%Z /\ traceVerbosity = 8%Z /\
  (Enabled lg w = true <->
   (GlobalLevel w <= tier_level (tier (verbosity lg)))%Z) /\
  ((verbosity lg < 2)%Z ->
   (Enabled lg w = true <-> (GlobalLevel w <= InfoLevel)%Z)) /\
  ((2 <= verbosity lg < 8)%Z ->
   (Enabled lg w = true <-> (GlobalLevel w <= DebugLevel)%Z)) /\
  ((8 <= verbosity lg)%Z ->
   (Enabled lg w = true <-> (GlobalLevel w <= TraceLevel)%Z)) /\
  tier 0 = INFO /\ tier 2 = DEBUG /\ tier 7 = DEBUG /\ tier 8 = TRACE.
Proof.
  assert (Hiff : Enabled lg w = true <->
                 (GlobalLevel w <= tier_level (tier (verbosity lg)))%Z).
  { rewrite Enabled_tier. apply bool_decide_eq_true. }
  repeat split; try tauto;
    destruct (tier_cases (verbosity lg)) as [[Hv Ht] | [[Hv Ht] | [Hv Ht]]];
    rewrite Ht in Hiff; simpl in Hiff; try tauto; lia.
Qed.

(** Verbosity 7 is gated as DEBUG: enabled at global level Debug, disabled
    at global level Info. *)
Lemma Enabled_thresholds_part001_witness :
  Enabled (mkLogger Stderr_Timestamp 7 "" nil_slice) (mkWorld DebugLevel [] []) = true /\
  Enabled (mkLogger Stderr_Timestamp 7 "" nil_slice) (mkWorld InfoLevel [] []) = false.
Proof.
  pose (lg := mkLogger Stderr_Timestamp 7 "" nil_slice).
  assert (Hv : (2 <= verbosity lg < 8)%Z) by (simpl; lia).
  split.
  - apply (proj1 (proj2 (proj2 (proj2 (proj2
             (Enabled_thresholds_part001 lg (mkWorld DebugLevel [] []))))))
           Hv).
    unfold DebugLevel; simpl; lia.
  - apply not_true_is_false. intros Hen.
    apply (proj1 (proj2 (proj2 (proj2 (proj2
             (Enabled_thresholds_part001 lg (mkWorld InfoLevel [] []))))))
           Hv) in Hen.
    unfold DebugLevel, InfoLevel in Hen; simpl in Hen; lia.
Defined.

(** An enabled [Info] of [src/unnamed/part_001] emits one entry: on the instance's sink, through
    the builder of the tier of the instance's verbosity, with the numeric
    field ["verbosity"], then the field ["name"] iff the name is not empty,
    then what [add] makes of the accumulated fields, then what [add] makes of
    the call-site pairs, finalised with the message.  When both sequences
    are well-formed the entry holds one field per accumulated pair followed
    by one field per call-site pair, in order, duplicate keys included. *)
Theorem Info_event_part001 (lg : logger) (msg : string) (keysAndVals : list value)
    (w : world) :
  (Enabled lg w = true ->
   Info lg msg keysAndVals w =
   Some (mkWorld (GlobalLevel w) (heap w)
           (output w ++
            [mkEntry (l lg) (tier_level (tier (verbosity lg)))
               ([CInt "verbosity" (verbosity lg)] ++
                (if decide (prefix lg = "") then []
                 else [CStr "name" (prefix lg)]) ++
                encoded (fields lg w) ++ encoded keysAndVals)
               msg]))) /\
  (forall acc kv,
      Enabled lg w = true ->
      fields lg w = flat acc ->
      Info lg msg (flat kv) w =
      Some (mkWorld (GlobalLevel w) (heap w)
              (output w ++
               [mkEntry (l lg) (tier_level (tier (verbosity lg)))
                  ([CInt "verbosity" (verbosity lg)] ++
                   (if decide (prefix lg = "") then []
                    else [CStr "name" (prefix lg)]) ++
                   ((fun p => CInterface p.1 p.2) <$> acc) ++
                   ((fun p => CInterface p.1 p.2) <$> kv))
                  msg]))).
Proof.
  split.
  - apply Info_enabled.
  - intros acc kv Hen Hacc.
    by rewrite (Info_enabled _ _ _ _ Hen), Hacc, !encoded_flat.
Qed.

(** The specification's end-to-end example: a root with an empty name,
    [info(root, "hello", "a", 1)] at global level Info. *)
Lemma Info_event_part001_witness :
  Info New "hello" [VString "a"; VInt 1] (mkWorld InfoLevel [] []) =
  Some (mkWorld InfoLevel []
          [mkEntry Stderr_Timestamp InfoLevel
             [CInt "verbosity" 0; CInterface "a" (VInt 1)] "hello"]).
Proof.
  exact (proj1 (Info_event_part001 New "hello" [VString "a"; VInt 1]
                  (mkWorld InfoLevel [] [])) eq_refl).
Defined.

(** C5.  [Error] emits exactly one entry through the sink's Error builder,
    with the supplied error attached first by [Err]; the entry is the same
    whatever the verbosity of the instance and the global minimum level, so
    also where [Enabled] answers false. *)
Theorem C5_Error_not_gated (lg : logger) (err : go_error) (msg : string)
    (keysAndVals : list value) (w : world) :
  exists cs,
    let ent := mkEntry (l lg) ErrorLevel (CErr err :: cs) msg in
    Error lg err msg keysAndVals w =
      Some (mkWorld (GlobalLevel w) (heap w) (output w ++ [ent])) /\
    forall (v : Z) (g : Level),
      Error (set_verbosity v lg) err msg keysAndVals (set_GlobalLevel g w) =
      Some (mkWorld g (heap w) (output w ++ [ent])).
Proof.
  exists (name_field lg ++ encoded (fields lg w) ++ encoded keysAndVals).
  split; [apply Error_entry |].
  intros v g. by rewrite Error_entry.
Qed.

(** C6.  Where [Enabled] answers false, [Info] returns the world as it was,
    whatever the message and the pairs, well-formed or not. *)
Theorem C6_Info_disabled_noop (lg : logger) (msg : string)
    (keysAndVals : list value) (w : world) :
  Enabled lg w = false -> Info lg msg keysAndVals w = Some w.
Proof. apply Info_disabled. Qed.

(** Verbosity 2 at global level Info, with an odd number of arguments. *)
Lemma C6_Info_disabled_noop_witness :
  Info (mkLogger Stderr_Timestamp 2 "app" nil_slice) "hello"
    [VInt 42; VString "v"; VString "k2"] (mkWorld InfoLevel [] []) =
  Some (mkWorld InfoLevel [] []).
Proof.
  exact (C6_Info_disabled_noop (mkLogger Stderr_Timestamp 2 "app" nil_slice)
           "hello" [VInt 42; VString "v"; VString "k2"]
           (mkWorld InfoLevel [] []) eq_refl).
Defined.

(** ** Derivations: what they return *)

(** C7.  [WithName] returns an instance whose name is the old name, a
    slash and the segment when the old name is not empty, and the segment
    alone when it is; sink and verbosity are kept.  Naming a root without a
    name "a" and then "b" gives "a" and then "a/b". *)
Theorem C7_WithName_name (lg : logger) (segment : string) (w : world) :
  (prefix lg <> "" ->
   prefix (WithName lg segment w).1 = (prefix lg +:+ "/") +:+ segment) /\
  (prefix lg = "" -> prefix (WithName lg segment w).1 = segment) /\
  l (WithName lg segment w).1 = l lg /\
  verbosity (WithName lg segment w).1 = verbosity lg /\
  (prefix lg = "" ->
   let '(a, w1) := WithName lg "a" w in
   let '(b, w2) := WithName a "b" w1 in
   prefix a = "a" /\ prefix b = "a/b").
Proof.
  assert (Hne : prefix lg <> "" ->
                prefix (WithName lg segment w).1 = (prefix lg +:+ "/") +:+ segment).
  { intros Hne. unfold WithName; simpl. rewrite decide_True; [done |].
    destruct (prefix lg); [done | simpl; lia]. }
  assert (Hempty : forall lg' name w',
             prefix lg' = "" -> prefix (WithName lg' name w').1 = name).
  { intros lg' name w' Heq. unfold WithName; simpl. by rewrite Heq. }
  split; [exact Hne |]. split; [apply Hempty |].
  split; [unfold WithName; simpl; by case_decide |].
  split; [unfold WithName; simpl; by case_decide |].
  intros Heq.
  destruct (WithName lg "a" w) as [a w1] eqn:Ha.
  destruct (WithName a "b" w1) as [b w2] eqn:Hb.
  assert (Hpa : prefix a = "a").
  { change a with (a, w1).1. rewrite <- Ha. by apply Hempty. }
  split; [exact Hpa |].
  change b with (b, w2).1. rewrite <- Hb.
  unfold WithName; simpl. by rewrite Hpa.
Qed.

Lemma C7_WithName_name_witness :
  prefix (WithName New "a" (mkWorld InfoLevel [] [])).1 = "a" /\
  prefix (WithName (WithName New "a" (mkWorld InfoLevel [] [])).1 "b"
            (WithName New "a" (mkWorld InfoLevel [] [])).2).1 = "a/b" /\
  prefix (WithName (mkLogger Stderr_Timestamp 0 "srv" nil_slice) "db"
            (mkWorld InfoLevel [] [])).1 = "srv/db".
Proof.
  split; [| split].
  - exact (proj1 (proj2 (C7_WithName_name New "a" (mkWorld InfoLevel [] [])))
             eq_refl).
  - exact (proj2 (proj2 (proj2 (proj2 (proj2
             (C7_WithName_name New "a" (mkWorld InfoLevel [] []))))) eq_refl)).
  - apply (proj1 (C7_WithName_name (mkLogger Stderr_Timestamp 0 "srv" nil_slice)
                    "db" (mkWorld InfoLevel [] []))).
    discriminate.
Defined.

(** C9.  [V] stores whatever verbosity it is given, negative ones too, and
    keeps sink and name.  An instance whose verbosity is below 2 is enabled
    iff the global minimum level is at most Info, and its enabled [Info]
    emits through the Info builder, with the verbosity as given in the
    ["verbosity"] field. *)
Theorem C9_V_no_validation (lg : logger) (v : Z) (w : world) :
  (verbosity (V lg v w).1 = v /\
   l (V lg v w).1 = l lg /\
   prefix (V lg v w).1 = prefix lg) /\
  ((v < 2)%Z ->
   forall (new : logger) (w' : world),
     verbosity new = v ->
     (Enabled new w' = true <-> (GlobalLevel w' <= InfoLevel)%Z) /\
     (forall msg keysAndVals,
         Enabled new w' = true ->
         exists cs,
           Info new msg keysAndVals w' =
           Some (mkWorld (GlobalLevel w') (heap w')
                   (output w' ++
                    [mkEntry (l new) InfoLevel (CInt "verbosity" v :: cs) msg])))).
Proof.
  split; [done |].
  intros Hv new w' Hnew.
  assert (Ht : tier (verbosity new) = INFO).
  { destruct (tier_cases (verbosity new)) as [[_ Ht] | [[Hv' _] | [Hv' _]]];
      [done | lia | lia]. }
  split.
  - rewrite Enabled_tier, Ht. apply bool_decide_eq_true.
  - intros msg kvs Hen. eexists. rewrite (Info_enabled _ _ _ _ Hen).
    rewrite Ht, Hnew. reflexivity.
Qed.

(** [V(-5)] on a root, enabled at global level Info. *)
Lemma C9_V_no_validation_witness :
  let new := (V New (-5) (mkWorld InfoLevel [] [])).1 in
  let w' := (V New (-5) (mkWorld InfoLevel [] [])).2 in
  verbosity new = (-5)%Z /\
  Enabled new w' = true /\
  exists cs,
    Info new "hello" [] w' =
    Some (mkWorld (GlobalLevel w') (heap w')
            (output w' ++
             [mkEntry (l new) InfoLevel (CInt "verbosity" (-5) :: cs) "hello"])).
Proof.
  pose (w := mkWorld InfoLevel [] []).
  assert (Hlt : (-5 < 2)%Z) by lia.
  pose proof (proj2 (C9_V_no_validation New (-5) w) Hlt
                (V New (-5) w).1 (V New (-5) w).2 eq_refl) as [Hen Hinfo].
  assert (Hen' : Enabled (V New (-5) w).1 (V New (-5) w).2 = true).
  { apply Hen. simpl. unfold InfoLevel. lia. }
  split; [reflexivity |]. split; [exact Hen' |].
  exact (Hinfo "hello" [] Hen').
Defined.

(** C10.  In [Info] and in [Error] the accumulated fields and the call-site
    pairs go through [add] separately: the entry holds what [add] makes of
    the first followed by what [add] makes of the second, and each part
    depends on its own sequence only.  An odd sequence contributes its
    diagnostic, a sequence with a key that is not text contributes the
    fields before it and its diagnostic, a well-formed one contributes one
    field per pair, whatever the other sequence is. *)
Theorem C10_separate_encoding (lg : logger) (err : go_error) (msg : string)
    (keysAndVals : list value) (w : world) :
  (Enabled lg w = true ->
   Info lg msg keysAndVals w =
   Some (mkWorld (GlobalLevel w) (heap w)
           (output w ++
            [mkEntry (l lg) (tier_level (tier (verbosity lg)))
               ([CInt "verbosity" (verbosity lg)] ++ name_field lg ++
                encoded (fields lg w) ++ encoded keysAndVals)
               msg]))) /\
  Error lg err msg keysAndVals w =
  Some (mkWorld (GlobalLevel w) (heap w)
          (output w ++
           [mkEntry (l lg) ErrorLevel
              ([CErr err] ++ name_field lg ++
               encoded (fields lg w) ++ encoded keysAndVals)
              msg])) /\
  (forall xs, Nat.Odd (length xs) -> encoded xs = odd_diagnostic xs) /\
  (forall ps key val rest,
      assert_string key = None ->
      Nat.Even (length rest) ->
      encoded (flat ps ++ key :: val :: rest) =
      pair_fields ps ++ key_diagnostic key) /\
  (forall ps, encoded (flat ps) = pair_fields ps).
Proof.
  split; [apply Info_enabled |].
  split; [apply Error_entry |].
  split; [intros xs Hodd; by apply encoded_odd, Odd_mod2 |].
  split; [intros; apply encoded_bad_key; auto using Even_mod2 |].
  apply encoded_flat.
Qed.

(** ** Slices and the store *)

Lemma keeps_app h k : keeps h (h ++ k).
Proof.
  split; [rewrite length_app; lia |].
  intros p Hp. by apply lookup_app_l.
Qed.

Lemma slice_ok_allocated h s : slice_ok h s -> allocated h s.
Proof.
  intros [Hlen Hcap]. unfold allocated.
  destruct (decide (ptr s < length h)) as [| Hge]; [by right | left].
  rewrite (lookup_ge_None_2 h (ptr s)) in Hcap by lia. simpl in Hcap. lia.
Qed.

Lemma slice_ok_length h s : slice_ok h s -> length (slice_read s h) = len s.
Proof.
  intros [Hlen Hcap]. unfold slice_read. apply length_take_le. lia.
Qed.

Lemma keeps_read h h' s :
  keeps h h' -> allocated h s -> slice_read s h' = slice_read s h.
Proof.
  intros [_ Hkeep] [Hzero | Hptr]; unfold slice_read.
  - by rewrite Hzero.
  - by rewrite Hkeep.
Qed.

Lemma keeps_ok h h' s : keeps h h' -> slice_ok h s -> slice_ok h' s.
Proof.
  intros [Hl Hkeep] [Hlen Hcap]. split; [done |].
  destruct (decide (ptr s < length h)) as [Hptr | Hge].
  - by rewrite Hkeep.
  - rewrite (lookup_ge_None_2 h (ptr s)) in Hcap by lia. simpl in Hcap. lia.
Qed.

Lemma nil_slice_ok h : slice_ok h nil_slice.
Proof. split; simpl; lia. Qed.

(** A root is well-formed in every store. *)
Lemma NewWithOptions_ok opts h : slice_ok h (values (NewWithOptions opts)).
Proof. apply nil_slice_ok. Qed.

(** [copySlice] allocates one array holding the elements of its argument. *)
Lemma copySlice_eq s h :
  slice_ok h s ->
  copySlice s h = (mkSlice (length h) (len s) (len s), h ++ [slice_read s h]).
Proof.
  intros Hok. unfold copySlice, make, copy. cbn [ptr len cap]. f_equal.
  rewrite Nat.min_id.
  rewrite (keeps_read h (h ++ [replicate (len s) VNil]) s (keeps_app _ _))
    by by apply slice_ok_allocated.
  rewrite <- (Nat.add_0_r (length h)) at 1.
  rewrite alter_app_r. simpl. f_equal.
  rewrite drop_ge by (by rewrite length_replicate).
  rewrite (right_id_L [] (++)). f_equal. apply take_ge.
  by rewrite slice_ok_length.
Qed.

Lemma slice_read_last h arr p n c :
  p = length h -> n <= length arr ->
  slice_read (mkSlice p n c) (h ++ [arr]) = take n arr.
Proof.
  intros -> Hn. unfold slice_read; cbn [ptr len].
  by rewrite list_lookup_middle.
Qed.

Lemma copySlice_read s h :
  slice_ok h s ->
  slice_read (copySlice s h).1 (copySlice s h).2 = slice_read s h.
Proof.
  intros Hok. rewrite copySlice_eq by done. cbn [fst snd].
  rewrite slice_read_last; [| done | by rewrite slice_ok_length].
  apply take_ge. by rewrite slice_ok_length.
Qed.

Lemma copySlice_ok s h :
  slice_ok h s -> slice_ok (copySlice s h).2 (copySlice s h).1.
Proof.
  intros Hok. rewrite copySlice_eq by done. cbn [fst snd].
  split; cbn [ptr len cap]; [done |].
  rewrite list_lookup_middle by done. simpl. by rewrite slice_ok_length.
Qed.

Section AppendFacts.

Variable growcap : nat -> nat -> nat.

(** The result of [append] holds the old elements followed by the new. *)
Lemma append_read s xs h :
  slice_ok h s ->
  slice_read (append growcap s xs h).1 (append growcap s xs h).2 =
  slice_read s h ++ xs.
Proof.
  intros Hok. pose proof Hok as [Hlen Hcap]. unfold append.
  case_decide as Hfit; cbn [fst snd].
  - unfold slice_read; cbn [ptr len].
    rewrite list_lookup_alter_eq.
    destruct (h !! ptr s) as [arr |] eqn:Harr; simpl in *.
    + rewrite (assoc_L (++)).
      rewrite take_app_length'; [done |].
      rewrite length_app, length_take_le by lia. done.
    + assert (len s = 0) as -> by lia.
      assert (length xs = 0) as Hxs by lia.
      by destruct xs.
  - rewrite slice_read_last; [| done |].
    + rewrite (assoc_L (++)).
      apply take_app_length'.
      by rewrite length_app, slice_ok_length.
    + rewrite !length_app, slice_ok_length by done. lia.
Qed.

(** [append] writes to the array of its argument or to a fresh one. *)
Lemma append_writes s xs h p :
  p < length h -> p <> ptr s ->
  (append growcap s xs h).2 !! p = h !! p.
Proof.
  intros Hp Hne. unfold append. case_decide; cbn [snd].
  - by apply list_lookup_alter_ne.
  - by apply lookup_app_l.
Qed.

Lemma append_length s xs h :
  length h <= length (append growcap s xs h).2.
Proof.
  unfold append. case_decide; cbn [snd].
  - by rewrite length_alter.
  - rewrite length_app. lia.
Qed.

Lemma append_allocated s xs h :
  slice_ok h s ->
  allocated (append growcap s xs h).2 (append growcap s xs h).1.
Proof.
  intros Hok. unfold append, allocated. case_decide; cbn [fst snd ptr len].
  - rewrite length_alter.
    destruct (slice_ok_allocated h s Hok) as [Hzero | Hptr]; [| by right].
    destruct (decide (ptr s < length h)) as [| Hge]; [by right | left].
    destruct Hok as [_ Hcap].
    rewrite (lookup_ge_None_2 h (ptr s)) in Hcap by lia. simpl in Hcap. lia.
  - right. rewrite length_app. simpl. lia.
Qed.

End AppendFacts.

(** ** Derivations and the store *)

Lemma clone_eq lg h :
  slice_ok h (values lg) ->
  clone lg h =
  (set_values (mkSlice (length h) (len (values lg)) (len (values lg))) lg,
   h ++ [slice_read (values lg) h]).
Proof. intros Hok. unfold clone. by rewrite copySlice_eq. Qed.

Lemma clone_keeps lg h : slice_ok h (values lg) -> keeps h (clone lg h).2.
Proof. intros Hok. rewrite clone_eq by done. apply keeps_app. Qed.

Lemma clone_ok lg h :
  slice_ok h (values lg) -> slice_ok (clone lg h).2 (values (clone lg h).1).
Proof.
  intros Hok. pose proof (copySlice_ok _ _ Hok) as Hc.
  unfold clone. by destruct (copySlice (values lg) h).
Qed.

Lemma clone_read lg h :
  slice_ok h (values lg) ->
  slice_read (values (clone lg h).1) (clone lg h).2 = slice_read (values lg) h.
Proof.
  intros Hok. pose proof (copySlice_read _ _ Hok) as Hc.
  unfold clone. by destruct (copySlice (values lg) h).
Qed.

Lemma clone_ptr lg h :
  slice_ok h (values lg) -> ptr (values (clone lg h).1) = length h.
Proof. intros Hok. by rewrite clone_eq. Qed.

(** [V] and [WithName] keep the store's arrays and copy the fields. *)
Lemma V_store lg v w :
  slice_ok (heap w) (values lg) ->
  keeps (heap w) (heap (V lg v w).2) /\
  fields (V lg v w).1 (V lg v w).2 = fields lg w /\
  slice_ok (heap (V lg v w).2) (values (V lg v w).1).
Proof.
  intros Hok. unfold V, fields.
  pose proof (clone_keeps _ _ Hok) as Hk.
  pose proof (clone_read _ _ Hok) as Hr.
  pose proof (clone_ok _ _ Hok) as Ho.
  by destruct (clone lg (heap w)) as [new h].
Qed.

Lemma WithName_store lg name w :
  slice_ok (heap w) (values lg) ->
  keeps (heap w) (heap (WithName lg name w).2) /\
  fields (WithName lg name w).1 (WithName lg name w).2 = fields lg w /\
  slice_ok (heap (WithName lg name w).2) (values (WithName lg name w).1).
Proof.
  intros Hok. unfold WithName, fields.
  pose proof (clone_keeps _ _ Hok) as Hk.
  pose proof (clone_read _ _ Hok) as Hr.
  pose proof (clone_ok _ _ Hok) as Ho.
  destruct (clone lg (heap w)) as [new h]. by case_decide.
Qed.

Section WithValuesFacts.

Variable growcap : nat -> nat -> nat.

(** [WithValues] keeps the store's arrays; its result holds the fields of
    the source followed by the new pairs, in an array of the new store. *)
Lemma WithValues_store lg kvList w :
  slice_ok (heap w) (values lg) ->
  keeps (heap w) (heap (WithValues growcap lg kvList w).2) /\
  fields (WithValues growcap lg kvList w).1 (WithValues growcap lg kvList w).2 =
    fields lg w ++ kvList /\
  allocated (heap (WithValues growcap lg kvList w).2)
    (values (WithValues growcap lg kvList w).1).
Proof.
  intros Hok. unfold WithValues, fields.
  pose proof (clone_keeps _ _ Hok) as [Hkl Hk].
  pose proof (clone_read _ _ Hok) as Hr.
  pose proof (clone_ok _ _ Hok) as Ho.
  pose proof (clone_ptr _ _ Hok) as Hp.
  destruct (clone lg (heap w)) as [new h]. cbn [fst snd] in *.
  pose proof (append_read growcap (values new) kvList h Ho) as Ha.
  pose proof (append_writes growcap (values new) kvList h) as Hw.
  pose proof (append_length growcap (values new) kvList h) as Hl.
  pose proof (append_allocated growcap (values new) kvList h Ho) as Hal.
  destruct (append growcap (values new) kvList h) as [vs h'].
  cbn [fst snd heap set_heap set_values values] in *.
  split; [| split].
  - split; [lia |]. intros p Hlt.
    rewrite Hw by lia. by apply Hk.
  - by rewrite Ha, Hr.
  - done.
Qed.

(** Provided the runtime grows a slice to at least the capacity asked
    for, the result of [WithValues] is again a well-formed slice. *)
Lemma WithValues_ok lg kvList w :
  (forall old need, need <= growcap old need) ->
  slice_ok (heap w) (values lg) ->
  slice_ok (heap (WithValues growcap lg kvList w).2)
    (values (WithValues growcap lg kvList w).1).
Proof.
  intros Hgrow Hok. unfold WithValues.
  pose proof (clone_ok _ _ Hok) as Ho.
  pose proof (clone_ptr _ _ Hok) as Hp.
  destruct (clone lg (heap w)) as [new h]. cbn [fst snd] in *.
  destruct Ho as [Hlen Hcap].
  unfold append. case_decide as Hfit;
    cbn [fst snd heap set_heap set_values values ptr len cap].
  - split; [done |]. rewrite list_lookup_alter_eq.
    destruct (h !! ptr (values new)) as [arr |] eqn:Harr; simpl in *; [| lia].
    rewrite !length_app, length_take_le, length_drop by lia. lia.
  - split; [apply Hgrow |].
    rewrite list_lookup_middle by done. simpl.
    rewrite !length_app, length_replicate.
    rewrite (slice_ok_length h (values new)) by done.
    pose proof (Hgrow (cap (values new)) (len (values new) + length kvList)).
    lia.
Qed.

(** C8.  No derivation changes the fields of an instance that exists
    when it is made: [V], [WithName] and [WithValues] leave the fields of
    every instance of the store as they were, the source included.  The
    instances [V] and [WithName] return hold a copy of the source's
    fields.  Two instances derived from the same root with [WithValues],
    one after the other, hold the root's fields followed by their own
    pairs and nothing of the other's, and the root holds what it held. *)
Theorem C8_derivation_leaves_source (R : logger) (w : world) :
  slice_ok (heap w) (values R) ->
  (forall (other : logger) (w' : world),
      slice_ok (heap w) (values other) ->
      (exists v, w' = (V R v w).2) \/
      (exists name, w' = (WithName R name w).2) \/
      (exists kvList, w' = (WithValues growcap R kvList w).2) ->
      fields other w' = fields other w) /\
  (forall v, fields (V R v w).1 (V R v w).2 = fields R w) /\
  (forall name,
      fields (WithName R name w).1 (WithName R name w).2 = fields R w) /\
  (forall kvA kvB,
      let '(A, w1) := WithValues growcap R kvA w in
      let '(B, w2) := WithValues growcap R kvB w1 in
      fields A w2 = fields R w ++ kvA /\
      fields B w2 = fields R w ++ kvB /\
      fields R w2 = fields R w).
Proof.
  intros Hok. split; [| split; [| split]].
  - intros other w' Hother Hw'.
    apply keeps_read; [| by apply slice_ok_allocated].
    destruct Hw' as [[v ->] | [[name ->] | [kvList ->]]].
    + by apply V_store.
    + by apply WithName_store.
    + by apply WithValues_store.
  - intros v. by apply V_store.
  - intros name. by apply WithName_store.
  - intros kvA kvB.
    pose proof (WithValues_store R kvA w Hok) as (HkA & HfA & HaA).
    destruct (WithValues growcap R kvA w) as [A w1]. cbn [fst snd] in *.
    assert (Hok1 : slice_ok (heap w1) (values R)) by by eapply keeps_ok.
    pose proof (WithValues_store R kvB w1 Hok1) as (HkB & HfB & HaB).
    destruct (WithValues growcap R kvB w1) as [B w2]. cbn [fst snd] in *.
    assert (HR1 : fields R w1 = fields R w).
    { apply keeps_read; [done | by apply slice_ok_allocated]. }
    split; [| split].
    + rewrite <- HfA. by apply keeps_read.
    + by rewrite HfB, HR1.
    + rewrite <- HR1. apply keeps_read; [done | by apply slice_ok_allocated].
Qed.

End WithValuesFacts.

(** ** Examples on a concrete store *)

Lemma double_or_need_ge old need : need <= double_or_need old need.
Proof. unfold double_or_need. case_decide; lia. Qed.

Example example_root_values :
  values example_root.1 = mkSlice 3 4 6 /\
  fields example_root.1 example_root.2 =
    [VString "x"; VInt 0; VString "y"; VString "z"].
Proof. split; reflexivity. Qed.

(** What the copy in [clone] prevents: two appends on the slice of that
    root itself land in the same array, and the first result then shows the
    pair of the second. *)
Example append_without_copy_is_shared :
  let s := values example_root.1 in
  let '(a, h1) := append double_or_need s [VString "a"; VInt 1] (heap example_root.2) in
  let '(b, h2) := append double_or_need s [VString "b"; VInt 2] h1 in
  slice_read a h2 =
    [VString "x"; VInt 0; VString "y"; VString "z"; VString "b"; VInt 2] /\
  slice_read b h2 =
    [VString "x"; VInt 0; VString "y"; VString "z"; VString "b"; VInt 2].
Proof. split; reflexivity. Qed.

(** [withValues(R, "a", 1)] and [withValues(R, "b", 2)] on that root. *)
Lemma C8_derivation_leaves_source_witness :
  let '(A, w1) :=
    WithValues double_or_need example_root.1 [VString "a"; VInt 1]
      example_root.2 in
  let '(B, w2) :=
    WithValues double_or_need example_root.1 [VString "b"; VInt 2] w1 in
  fields A w2 =
    [VString "x"; VInt 0; VString "y"; VString "z"; VString "a"; VInt 1] /\
  fields B w2 =
    [VString "x"; VInt 0; VString "y"; VString "z"; VString "b"; VInt 2] /\
  fields example_root.1 w2 =
    [VString "x"; VInt 0; VString "y"; VString "z"].
Proof.
  assert (Hok : slice_ok (heap example_root.2) (values example_root.1)).
  { split; vm_compute; lia. }
  exact (proj2 (proj2 (proj2
           (C8_derivation_leaves_source double_or_need
              example_root.1 example_root.2 Hok)))
           [VString "a"; VInt 1] [VString "b"; VInt 2]).
Defined.

(** [Info] with accumulated fields of odd length and well-formed call-site
    pairs; [Error] with well-formed accumulated fields and a call-site key
    that is not text. *)
Lemma C10_separate_encoding_witness :
  Info example_odd.1 "hello" [VString "a"; VInt 1] example_odd.2 =
  Some (mkWorld InfoLevel [[]; [VString "orphan"]]
          [mkEntry Stderr_Timestamp InfoLevel
             [CInt "verbosity" 0;
              CInterface "args" (VSlice [VString "orphan"]);
              CAnErr "zerologr-err" odd_arguments;
              CStack;
              CInterface "a" (VInt 1)]
             "hello"]) /\
  Error example_root.1 (errors_New "boom") "failed"
    [VInt 42; VString "v"; VString "k2"; VString "v2"] example_root.2 =
  Some (mkWorld InfoLevel (heap example_root.2)
          [mkEntry Stderr_Timestamp ErrorLevel
             [CErr (errors_New "boom");
              CInterface "x" (VInt 0);
              CInterface "y" (VString "z");
              CInterface "invalid key" (VInt 42);
              CAnErr "zerologr-err" non_string_key;
              CStack]
             "failed"]).
Proof.
  split.
  - exact (proj1 (C10_separate_encoding example_odd.1 nil_error "hello"
                    [VString "a"; VInt 1] example_odd.2)
                 eq_refl).
  - exact (proj1 (proj2 (C10_separate_encoding example_root.1
                           (errors_New "boom") "failed"
                           [VInt 42; VString "v"; VString "k2"; VString "v2"]
                           example_root.2))).
Defined.

(** ** The revision in [src/zerologr.go] *)

(** Its [Enabled] answers as the one above except at 7, which it gates as
    TRACE. *)
Lemma ZerologrGo_Enabled_other lg w :
  verbosity lg <> 7%Z -> ZerologrGo.Enabled lg w = Enabled lg w.
Proof.
  intros Hne. unfold ZerologrGo.Enabled, Enabled, debugVerbosity, traceVerbosity.
  repeat case_decide; first [done | lia].
Qed.

Lemma ZerologrGo_Enabled_7 lg w :
  verbosity lg = 7%Z ->
  ZerologrGo.Enabled lg w = bool_decide (GlobalLevel w <= TraceLevel)%Z.
Proof.
  intros Hv. unfold ZerologrGo.Enabled. rewrite Hv. simpl.
  case_decide; symmetry;
    (apply bool_decide_eq_true_2 || apply bool_decide_eq_false_2); lia.
Qed.

Example ZerologrGo_Enabled_7_Debug :
  ZerologrGo.Enabled (mkLogger Stderr_Timestamp 7 "" nil_slice)
    (mkWorld DebugLevel [] []) = false.
Proof. reflexivity. Qed.

(** Its enabled [Info] always goes through the Info builder and calls the
    numeric field ["level"]. *)
Lemma ZerologrGo_Info_enabled lg msg kvs w :
  ZerologrGo.Enabled lg w = true ->
  ZerologrGo.Info lg msg kvs w =
  Some (mkWorld (GlobalLevel w) (heap w)
          (output w ++
           [mkEntry (l lg) InfoLevel
              ([CInt "level" (verbosity lg)] ++ name_field lg ++
               encoded (fields lg w) ++ encoded kvs)
              msg])).
Proof.
  intros Hen. unfold ZerologrGo.Info. rewrite Hen, name_field_extend.
  rewrite add_encoded. simpl. rewrite add_encoded. simpl.
  unfold Msg, finalize; simpl. by rewrite <- !(assoc_L (++)).
Qed.

Lemma ZerologrGo_Info_disabled lg msg kvs w :
  ZerologrGo.Enabled lg w = false -> ZerologrGo.Info lg msg kvs w = Some w.
Proof. intros Hdis. unfold ZerologrGo.Info. by rewrite Hdis. Qed.

(** Below 2 it gates as INFO too. *)
Lemma ZerologrGo_Enabled_below_2 lg w :
  (verbosity lg < 2)%Z ->
  ZerologrGo.Enabled lg w = bool_decide (GlobalLevel w <= InfoLevel)%Z.
Proof.
  intros Hv. unfold ZerologrGo.Enabled.
  destruct (decide (verbosity lg < 2)%Z); [| lia].
  destruct (decide (InfoLevel < GlobalLevel w)%Z); symmetry;
    (apply bool_decide_eq_true_2 || apply bool_decide_eq_false_2); lia.
Qed.

(** C1.  [Enabled] in the two revisions.  The one of
    [src/unnamed/part_001] answers true iff the level of the tier of the
    verbosity (thresholds 2 and 8) is at or above the global minimum, for
    every instance and world.  The one of [src/zerologr.go] compares with 7
    instead of 8: it meets that condition on every input except verbosity 7
    at global level Debug.  There, on [New().V(7)], the tier is DEBUG and is
    at the global minimum, and it answers false. *)
Theorem C1_Enabled_zerologr_go_at_7 :
  (forall lg w,
      Enabled lg w = true <->
      (GlobalLevel w <= tier_level (tier (verbosity lg)))%Z) /\
  (forall lg w,
      (ZerologrGo.Enabled lg w = true <->
       (GlobalLevel w <= tier_level (tier (verbosity lg)))%Z) <->
      ~ (verbosity lg = 7%Z /\ GlobalLevel w = DebugLevel)) /\
  (let lg := (V New 7 (mkWorld DebugLevel [] [])).1 in
   let w := (V New 7 (mkWorld DebugLevel [] [])).2 in
   verbosity lg = 7%Z /\
   GlobalLevel w = DebugLevel /\
   tier (verbosity lg) = DEBUG /\
   (GlobalLevel w <= tier_level (tier (verbosity lg)))%Z /\
   Enabled lg w = true /\
   ZerologrGo.Enabled lg w = false).
Proof.
  split; [| split].
  - intros lg w. rewrite Enabled_tier. apply bool_decide_eq_true.
  - intros lg w.
    destruct (decide (verbosity lg = 7%Z)) as [Hv | Hv].
    + rewrite (ZerologrGo_Enabled_7 lg w Hv), bool_decide_eq_true, Hv.
      unfold tier_level, TraceLevel, DebugLevel; simpl. split.
      * intros Hiff [_ Hg]. lia.
      * intros Hne. split; [lia |]. intros Hle.
        destruct (decide (GlobalLevel w = 0%Z)) as [Hg | Hg]; [| lia].
        destruct Hne. by split.
    + rewrite (ZerologrGo_Enabled_other lg w Hv), Enabled_tier, bool_decide_eq_true.
      split; [| done]. intros _ [Hv' _]. done.
  - split_and!; first [reflexivity | by vm_compute].
Qed.

(** C2.  [Info] in the two revisions, on
    [New().WithName("app").WithValues("req", 7).V(3).Info("hello", "a", 1)]
    at global level Debug, where both are enabled.  The one of
    [src/unnamed/part_001] emits through the Debug builder, the tier of
    verbosity 3, with the numeric field ["verbosity"].  The one of
    [src/zerologr.go] emits through the Info builder with the numeric field
    ["level"]; name, accumulated pair and call-site pair are the same.  So it
    does on the specification's example [info(root, "hello", "a", 1)], and
    on every call that emits. *)
Theorem C2_Info_zerologr_go_level :
  (let lg := example_app.1 in
   let w := example_app.2 in
   tier (verbosity lg) = DEBUG /\
   Enabled lg w = true /\
   ZerologrGo.Enabled lg w = true /\
   output <$> Info lg "hello" [VString "a"; VInt 1] w =
     Some [mkEntry Stderr_Timestamp DebugLevel
             [CInt "verbosity" 3; CStr "name" "app";
              CInterface "req" (VInt 7); CInterface "a" (VInt 1)]
             "hello"] /\
   output <$> ZerologrGo.Info lg "hello" [VString "a"; VInt 1] w =
     Some [mkEntry Stderr_Timestamp InfoLevel
             [CInt "level" 3; CStr "name" "app";
              CInterface "req" (VInt 7); CInterface "a" (VInt 1)]
             "hello"]) /\
  output <$> ZerologrGo.Info New "hello" [VString "a"; VInt 1]
               (mkWorld InfoLevel [] []) =
    Some [mkEntry Stderr_Timestamp InfoLevel
            [CInt "level" 0; CInterface "a" (VInt 1)] "hello"] /\
  (forall lg msg keysAndVals w,
      ZerologrGo.Info lg msg keysAndVals w = Some w \/
      exists cs,
        ZerologrGo.Info lg msg keysAndVals w =
        Some (mkWorld (GlobalLevel w) (heap w)
                (output w ++
                 [mkEntry (l lg) InfoLevel
                    (CInt "level" (verbosity lg) :: cs) msg]))).
Proof.
  split; [| split].
  - split_and!; reflexivity.
  - reflexivity.
  - intros lg msg kvs w. destruct (ZerologrGo.Enabled lg w) eqn:Hen.
    + right. eexists. by rewrite (ZerologrGo_Info_enabled _ _ _ _ Hen).
    + left. by apply ZerologrGo_Info_disabled.
Qed.

(** * Further properties of the package *)

(** ** [add] on its own *)

Lemma CStack_not_pair_field ps : CStack ∉ pair_fields ps.
Proof.
  unfold pair_fields. intros Hin.
  apply list_elem_of_fmap in Hin as (p & Heq & _). discriminate.
Qed.

Lemma AnErr_not_pair_field key err ps : CAnErr key err ∉ pair_fields ps.
Proof.
  unfold pair_fields. intros Hin.
  apply list_elem_of_fmap in Hin as (p & Heq & _). discriminate.
Qed.

Lemma well_formed_even kvs : well_formed kvs -> length kvs `mod` 2 = 0.
Proof.
  intros [ps ->]. rewrite <- (right_id_L [] (++) (flat ps)). by rewrite flat_even.
Qed.

(** X1.  [add] only appends: it keeps the sink, the level and every invocation
    the event already holds, and what it appends is the same for every
    event. *)
Theorem add_appends_only (keysAndVals : list value) :
  exists cs,
    forall e,
      add e keysAndVals =
      Some (mkEvent (ev_sink e) (ev_level e) (ev_calls e ++ cs)).
Proof. exists (encoded keysAndVals). intros e. by rewrite add_encoded. Qed.

(** X2.  [add] attaches its diagnostic (the error ["zerologr-err"] and the call
    stack) exactly when the sequence is not a flat list of text-keyed pairs;
    a well-formed sequence yields one [Interface] field per pair and nothing
    else. *)
Theorem add_diagnostic_iff_malformed (s : Logger) (lvl : Level)
    (keysAndVals : list value) :
  exists e',
    add (newEvent s lvl) keysAndVals = Some e' /\
    (CStack ∈ ev_calls e' <-> ~ well_formed keysAndVals) /\
    ((exists err, CAnErr "zerologr-err" err ∈ ev_calls e') <->
     ~ well_formed keysAndVals) /\
    (forall ps, keysAndVals = flat ps -> ev_calls e' = pair_fields ps).
Proof.
  exists (extend (newEvent s lvl) (encoded keysAndVals)).
  split; [apply add_encoded |]. simpl.
  assert (Hwf : forall ps, keysAndVals = flat ps ->
                           encoded keysAndVals = pair_fields ps).
  { intros ps ->. apply encoded_flat. }
  assert (Hbad : ~ well_formed keysAndVals ->
                 CStack ∈ encoded keysAndVals /\
                 exists err, CAnErr "zerologr-err" err ∈ encoded keysAndVals).
  { intros Hnwf.
    destruct (decide (length keysAndVals `mod` 2 = 0)) as [Heven | Hodd].
    - destruct (even_split _ Heven)
        as [[ps ->] | (ps & key & val & rest & -> & Hkey & Hrest)].
      + destruct Hnwf. by exists ps.
      + rewrite encoded_bad_key by auto using Even_mod2.
        unfold key_diagnostic.
        split; [| eexists]; apply elem_of_app; right; repeat econstructor.
    - rewrite encoded_odd by done.
      unfold odd_diagnostic. split; [| eexists]; repeat econstructor. }
  split; [| split; [| exact Hwf]].
  - split.
    + intros Hin [ps Hps]. rewrite (Hwf ps Hps) in Hin.
      by apply CStack_not_pair_field in Hin.
    + intros Hnwf. by apply Hbad.
  - split.
    + intros [err Hin] [ps Hps]. rewrite (Hwf ps Hps) in Hin.
      by apply AnErr_not_pair_field in Hin.
    + intros Hnwf. by apply Hbad.
Qed.

Lemma add_diagnostic_iff_malformed_witness :
  exists e',
    add (newEvent Stderr_Timestamp InfoLevel)
      [VString "a"; VInt 1; VString "b"; VInt 2] = Some e' /\
    ev_calls e' = [CInterface "a" (VInt 1); CInterface "b" (VInt 2)].
Proof.
  destruct (add_diagnostic_iff_malformed Stderr_Timestamp InfoLevel
              [VString "a"; VInt 1; VString "b"; VInt 2])
    as (e' & Hadd & _ & _ & Hwf).
  exists e'. split; [exact Hadd |].
  exact (Hwf [("a", VInt 1); ("b", VInt 2)] eq_refl).
Defined.

(** X3.  Leading text-keyed pairs and what follows them: when an even number of
    arguments follows, [add] encodes the leading pairs and then treats the
    rest as it would on its own; when an odd number follows, the whole
    sequence is odd and the leading pairs are lost with it. *)
Theorem add_after_pairs (ps : list (string * value)) (rest : list value)
    (e : Event) :
  (Nat.Even (length rest) ->
   add e (flat ps ++ rest) =
   add (extend e (pair_fields ps)) rest) /\
  (Nat.Odd (length rest) ->
   add e (flat ps ++ rest) =
   Some (extend e (odd_diagnostic (flat ps ++ rest)))).
Proof.
  split.
  - intros Heven%Even_mod2.
    rewrite !add_even by (by rewrite ?flat_even).
    apply add_loop_flat.
  - intros Hodd%Odd_mod2. apply add_odd. by rewrite flat_even.
Qed.

Lemma add_after_pairs_witness :
  add (newEvent Stderr_Timestamp InfoLevel)
    (flat [("a", VInt 1)] ++ [VString "b"; VInt 2]) =
  add (mkEvent Stderr_Timestamp InfoLevel [CInterface "a" (VInt 1)])
    [VString "b"; VInt 2] /\
  add (newEvent Stderr_Timestamp InfoLevel)
    (flat [("a", VInt 1)] ++ [VString "b"]) =
  Some (mkEvent Stderr_Timestamp InfoLevel
          (odd_diagnostic [VString "a"; VInt 1; VString "b"])).
Proof.
  split.
  - apply (proj1 (add_after_pairs [("a", VInt 1)] [VString "b"; VInt 2]
                    (newEvent Stderr_Timestamp InfoLevel))).
    exists 1. reflexivity.
  - apply (proj2 (add_after_pairs [("a", VInt 1)] [VString "b"]
                    (newEvent Stderr_Timestamp InfoLevel))).
    exists 0. reflexivity.
Defined.

(** ** [Enabled], [Info] and [Error] on their own *)

Lemma tier_level_antitone (v1 v2 : Z) :
  (v1 <= v2)%Z -> (tier_level (tier v2) <= tier_level (tier v1))%Z.
Proof.
  intros Hle.
  destruct (tier_cases v1) as [[H1 ->] | [[H1 ->] | [H1 ->]]];
    destruct (tier_cases v2) as [[H2 ->] | [[H2 ->] | [H2 ->]]];
    unfold tier_level, InfoLevel, DebugLevel, TraceLevel; lia.
Qed.

(** X4.  Enablement is monotone: an instance that is enabled stays enabled when
    its verbosity is lowered or the global minimum level is lowered.  In
    particular [Enabled] depends on nothing but the verbosity and the global
    level. *)
Theorem Enabled_monotone (lg1 lg2 : logger) (w1 w2 : world) :
  (verbosity lg1 <= verbosity lg2)%Z ->
  (GlobalLevel w1 <= GlobalLevel w2)%Z ->
  Enabled lg2 w2 = true ->
  Enabled lg1 w1 = true.
Proof.
  intros Hv Hg. rewrite !Enabled_tier, !bool_decide_eq_true.
  pose proof (tier_level_antitone _ _ Hv). lia.
Qed.

(** Verbosity 9 enabled at global level Trace, hence verbosity 3 enabled at
    global level Trace. *)
Lemma Enabled_monotone_witness :
  Enabled (mkLogger Stderr_Timestamp 3 "" nil_slice) (mkWorld TraceLevel [] []) = true.
Proof.
  apply (Enabled_monotone
           (mkLogger Stderr_Timestamp 3 "" nil_slice)
           (mkLogger (Custom 1) 9 "app" nil_slice)
           (mkWorld TraceLevel [] []) (mkWorld TraceLevel [] [])).
  - simpl. lia.
  - simpl. lia.
  - reflexivity.
Defined.

(** X5.  [Info] never panics, whatever the instance, the store and the
    arguments; it leaves the store and the global level alone, keeps every
    entry already in the output and adds at most one. *)
Theorem Info_total_frame (lg : logger) (msg : string)
    (keysAndVals : list value) (w : world) :
  exists w',
    Info lg msg keysAndVals w = Some w' /\
    heap w' = heap w /\
    GlobalLevel w' = GlobalLevel w /\
    (output w' = output w \/
     exists ent, output w' = output w ++ [ent] /\ ent_msg ent = msg /\
                 ent_sink ent = l lg).
Proof.
  destruct (Enabled lg w) eqn:Hen.
  - eexists. split; [by apply Info_enabled |]. simpl.
    repeat split. right. by eexists.
  - exists w. split; [by apply Info_disabled |]. auto.
Qed.

(** X6.  [Error] never panics either and leaves the store and the global level
    alone; its one entry carries the message and goes to the instance's
    sink. *)
Theorem Error_total_frame (lg : logger) (err : go_error) (msg : string)
    (keysAndVals : list value) (w : world) :
  exists w' ent,
    Error lg err msg keysAndVals w = Some w' /\
    heap w' = heap w /\
    GlobalLevel w' = GlobalLevel w /\
    output w' = output w ++ [ent] /\
    ent_msg ent = msg /\ ent_sink ent = l lg /\ ent_level ent = ErrorLevel.
Proof.
  do 2 eexists. split; [apply Error_entry |]. simpl. by repeat split.
Qed.

(** X7.  [Info] never hands the sink an entry below the global minimum level:
    every entry it adds has a level at or above [GlobalLevel], and that
    level is Info, Debug or Trace. *)
Theorem Info_respects_GlobalLevel (lg : logger) (msg : string)
    (keysAndVals : list value) (w w' : world) (ent : entry) :
  Info lg msg keysAndVals w = Some w' ->
  ent ∈ output w' ->
  ent ∈ output w \/
  ((GlobalLevel w <= ent_level ent)%Z /\
   (ent_level ent = InfoLevel \/ ent_level ent = DebugLevel \/
    ent_level ent = TraceLevel)).
Proof.
  intros Hinfo Hin.
  destruct (Enabled lg w) eqn:Hen.
  - rewrite (Info_enabled _ _ _ _ Hen) in Hinfo. injection Hinfo as <-.
    simpl in Hin. apply elem_of_app in Hin as [Hin | Hin]; [by left | right].
    apply list_elem_of_singleton in Hin as ->. simpl.
    rewrite Enabled_tier, bool_decide_eq_true in Hen. split; [done |].
    destruct (tier (verbosity lg)); simpl; auto.
  - rewrite (Info_disabled _ _ _ _ Hen) in Hinfo. injection Hinfo as <-.
    by left.
Qed.

(** Verbosity 5 at global level Debug. *)
Lemma Info_respects_GlobalLevel_witness :
  let ent := mkEntry Stderr_Timestamp DebugLevel [CInt "verbosity" 5] "m" in
  ent ∈ [] \/
  ((DebugLevel <= ent_level ent)%Z /\
   (ent_level ent = InfoLevel \/ ent_level ent = DebugLevel \/
    ent_level ent = TraceLevel)).
Proof.
  intros ent.
  assert (Hin : ent ∈ [ent]) by (apply list_elem_of_singleton; reflexivity).
  exact (Info_respects_GlobalLevel
           (mkLogger Stderr_Timestamp 5 "" nil_slice) "m" []
           (mkWorld DebugLevel [] []) (mkWorld DebugLevel [] [ent]) ent
           eq_refl Hin).
Defined.

(** X8.  A fresh root: it holds no fields in any store, it goes to the sink of
    the options or to the default one, it is enabled iff the global minimum
    level is at most Info, and its [Info] with well-formed pairs emits, at
    level Info, verbosity 0, the name of the options when there is one, and
    the pairs. *)
Theorem NewWithOptions_root (opts : Options) (w : world) :
  fields (NewWithOptions opts) w = [] /\
  l (NewWithOptions opts) = default Stderr_Timestamp (opt_Logger opts) /\
  (Enabled (NewWithOptions opts) w = true <-> (GlobalLevel w <= InfoLevel)%Z) /\
  (forall msg kv,
      (GlobalLevel w <= InfoLevel)%Z ->
      Info (NewWithOptions opts) msg (flat kv) w =
      Some (mkWorld (GlobalLevel w) (heap w)
              (output w ++
               [mkEntry (default Stderr_Timestamp (opt_Logger opts)) InfoLevel
                  ([CInt "verbosity" 0] ++
                   (if decide (Name opts = "") then []
                    else [CStr "name" (Name opts)]) ++
                   pair_fields kv)
                  msg]))).
Proof.
  assert (Hen : Enabled (NewWithOptions opts) w = true <->
                (GlobalLevel w <= InfoLevel)%Z).
  { rewrite Enabled_tier. apply bool_decide_eq_true. }
  split; [done |]. split; [by destruct opts as [n [s |]] |].
  split; [exact Hen |].
  intros msg kv Hg. apply Hen in Hg.
  rewrite (Info_enabled _ _ _ _ Hg), encoded_flat.
  by destruct opts as [n [s |]].
Qed.

Lemma NewWithOptions_root_witness :
  Info (NewWithOptions (mkOptions "app" (Some (Custom 7)))) "started"
    [VString "port"; VInt 8080] (mkWorld DebugLevel [] []) =
  Some (mkWorld DebugLevel []
          [mkEntry (Custom 7) InfoLevel
             [CInt "verbosity" 0; CStr "name" "app";
              CInterface "port" (VInt 8080)]
             "started"]).
Proof.
  apply (proj2 (proj2 (proj2
           (NewWithOptions_root (mkOptions "app" (Some (Custom 7)))
              (mkWorld DebugLevel [] []))))
           "started" [("port", VInt 8080)]).
  unfold DebugLevel, InfoLevel. simpl. lia.
Defined.

(** ** [WithName] on its own *)

Lemma WithName_prefix lg name w :
  prefix (WithName lg name w).1 = join_name (prefix lg) name.
Proof.
  unfold WithName, join_name; simpl.
  destruct (decide (prefix lg = "")) as [Hp | Hp].
  - rewrite Hp. by simpl.
  - rewrite decide_True; [done |].
    destruct (prefix lg); [done | simpl; lia].
Qed.

Lemma string_app_assoc (a b c : string) : (a +:+ b) +:+ c = a +:+ (b +:+ c).
Proof.
  induction a as [| x a IH]; [done |].
  change (String x ((a +:+ b) +:+ c) = String x (a +:+ (b +:+ c))).
  by f_equal.
Qed.

Lemma string_app_empty (a b : string) : a +:+ b = "" -> a = "" /\ b = "".
Proof. destruct a; [done | discriminate]. Qed.

(** X9.  [WithName] does not look into the segment: naming with [a] and then
    with [b] gives the name that naming once with [a/b] gives, unless both
    the instance's name and [a] are empty. *)
Theorem WithName_slash (lg : logger) (a b : string) (w : world) :
  prefix lg <> "" \/ a <> "" ->
  prefix (WithName (WithName lg a w).1 b (WithName lg a w).2).1 =
  prefix (WithName lg ((a +:+ "/") +:+ b) w).1.
Proof.
  intros Hne. rewrite !WithName_prefix. unfold join_name.
  destruct (decide (prefix lg = "")) as [Hp | Hp].
  - destruct Hne as [Hne | Hne]; [done |]. by rewrite decide_False.
  - rewrite decide_False.
    + by rewrite !string_app_assoc.
    + intros Heq. apply string_app_empty in Heq as [Heq _].
      by apply string_app_empty in Heq as [Heq _].
Qed.

Lemma WithName_slash_witness :
  prefix (WithName (WithName New "a" (mkWorld InfoLevel [] [])).1 "b"
            (WithName New "a" (mkWorld InfoLevel [] [])).2).1 =
  prefix (WithName New "a/b" (mkWorld InfoLevel [] [])).1.
Proof.
  apply (WithName_slash New "a" "b" (mkWorld InfoLevel [] [])).
  right. discriminate.
Defined.

(** The excluded case: on an unnamed instance an empty segment leaves the
    name empty, so a segment that follows is not preceded by a slash. *)
Example WithName_empty_segment :
  prefix (WithName (WithName New "" (mkWorld InfoLevel [] [])).1 "b"
            (WithName New "" (mkWorld InfoLevel [] [])).2).1 = "b" /\
  prefix (WithName New "/b" (mkWorld InfoLevel [] [])).1 = "/b".
Proof. split; reflexivity. Qed.

(** X10.  The name of the result is empty only when both the old name and the
    segment are, and it always ends with the segment. *)
Theorem WithName_nonempty (lg : logger) (name : string) (w : world) :
  (prefix (WithName lg name w).1 = "" <-> prefix lg = "" /\ name = "") /\
  exists front, prefix (WithName lg name w).1 = front +:+ name.
Proof.
  rewrite WithName_prefix. unfold join_name.
  destruct (decide (prefix lg = "")) as [Hp | Hp].
  - split; [tauto | by exists ""].
  - split; [| by eexists].
    split; [| tauto].
    intros Heq. apply string_app_empty in Heq as [Heq _].
    by apply string_app_empty in Heq as [Heq _].
Qed.

Lemma WithName_nonempty_witness :
  prefix (WithName New "" (mkWorld InfoLevel [] [])).1 = "".
Proof.
  apply (proj1 (WithName_nonempty New "" (mkWorld InfoLevel [] []))).
  split; reflexivity.
Defined.

(** ** [clone], [V], [WithName] and the store *)

Lemma slice_read_copy h n c (xs : list value) :
  length xs = n ->
  slice_read (mkSlice (length h) n c) (h ++ [xs]) = xs.
Proof.
  intros Hn. rewrite slice_read_last by (done || lia).
  apply take_ge. lia.
Qed.

(** X11.  [clone] on a well-formed instance: the result has the same sink,
    verbosity and name; its slice is full (length and capacity are the
    length of the source) and lives in one new array, put at the end of the
    store, which holds the source's fields; nothing else in the store
    changes. *)
Theorem clone_fresh_copy (lg : logger) (h : store) :
  slice_ok h (values lg) ->
  clone lg h =
    (mkLogger (l lg) (verbosity lg) (prefix lg)
       (mkSlice (length h) (len (values lg)) (len (values lg))),
     h ++ [slice_read (values lg) h]) /\
  slice_read (values (clone lg h).1) (clone lg h).2 = slice_read (values lg) h /\
  length (slice_read (values lg) h) = len (values lg).
Proof.
  intros Hok. split; [by rewrite clone_eq | split].
  - by apply clone_read.
  - by apply slice_ok_length.
Qed.

Lemma clone_fresh_copy_witness :
  clone example_root.1 (heap example_root.2) =
  (mkLogger Stderr_Timestamp 0 "" (mkSlice 4 4 4),
   heap example_root.2 ++ [[VString "x"; VInt 0; VString "y"; VString "z"]]).
Proof.
  assert (Hok : slice_ok (heap example_root.2) (values example_root.1)).
  { split; vm_compute; lia. }
  exact (proj1 (clone_fresh_copy example_root.1 (heap example_root.2) Hok)).
Defined.

Lemma V_eq lg v w :
  slice_ok (heap w) (values lg) ->
  V lg v w =
  (mkLogger (l lg) v (prefix lg)
     (mkSlice (length (heap w)) (len (values lg)) (len (values lg))),
   set_heap (heap w ++ [fields lg w]) w).
Proof. intros Hok. unfold V. by rewrite clone_eq. Qed.

Lemma WithName_eq lg name w :
  slice_ok (heap w) (values lg) ->
  WithName lg name w =
  (mkLogger (l lg) (verbosity lg) (join_name (prefix lg) name)
     (mkSlice (length (heap w)) (len (values lg)) (len (values lg))),
   set_heap (heap w ++ [fields lg w]) w).
Proof.
  intros Hok.
  pose proof (WithName_prefix lg name w) as Hp.
  unfold WithName in *. rewrite clone_eq in * by done.
  cbn [fst snd] in *. f_equal.
  destruct (decide (0 < String.length (prefix lg))); cbn in *; by rewrite <- Hp.
Qed.

(** X12.  [V] and [WithName] commute: in either order they give the same
    instance and the same world. *)
Theorem V_WithName_commute (lg : logger) (v : Z) (name : string) (w : world) :
  slice_ok (heap w) (values lg) ->
  WithName (V lg v w).1 name (V lg v w).2 =
  V (WithName lg name w).1 v (WithName lg name w).2.
Proof.
  intros Hok.
  pose proof (slice_ok_length _ _ Hok) as Hlen.
  rewrite (V_eq lg v w Hok), (WithName_eq lg name w Hok). cbn [fst snd].
  assert (Hok' : forall x p,
    slice_ok (heap (set_heap (heap w ++ [fields lg w]) w))
      (values (mkLogger (l lg) x p
         (mkSlice (length (heap w)) (len (values lg)) (len (values lg)))))).
  { intros x p. split; cbn [heap set_heap values ptr len cap]; [done |].
    rewrite list_lookup_middle by done. simpl. unfold fields. lia. }
  rewrite WithName_eq, V_eq by apply Hok'.
  unfold fields. cbn [heap set_heap values l verbosity prefix len].
  by rewrite (slice_read_copy _ _ _ _ Hlen).
Qed.

Lemma V_WithName_commute_witness :
  WithName (V example_root.1 3 example_root.2).1 "db"
    (V example_root.1 3 example_root.2).2 =
  V (WithName example_root.1 "db" example_root.2).1 3
    (WithName example_root.1 "db" example_root.2).2.
Proof.
  assert (Hok : slice_ok (heap example_root.2) (values example_root.1)).
  { split; vm_compute; lia. }
  exact (V_WithName_commute example_root.1 3 "db" example_root.2 Hok).
Defined.

(** ** Chains of derivations *)

Lemma keeps_trans h1 h2 h3 : keeps h1 h2 -> keeps h2 h3 -> keeps h1 h3.
Proof.
  intros [Hl12 H12] [Hl23 H23]. split; [lia |].
  intros p Hp. rewrite H23 by lia. by apply H12.
Qed.

Lemma flat_app ps qs : flat (ps ++ qs) = flat ps ++ flat qs.
Proof.
  induction ps as [| [k v] ps IH]; [done |].
  change (((k, v) :: ps) ++ qs) with ((k, v) :: (ps ++ qs)).
  rewrite !flat_cons, IH. done.
Qed.

Section DeriveFacts.

Variable growcap : nat -> nat -> nat.

Lemma WithValues_kept lg kvList w :
  l (WithValues growcap lg kvList w).1 = l lg /\
  verbosity (WithValues growcap lg kvList w).1 = verbosity lg /\
  prefix (WithValues growcap lg kvList w).1 = prefix lg /\
  GlobalLevel (WithValues growcap lg kvList w).2 = GlobalLevel w /\
  output (WithValues growcap lg kvList w).2 = output w.
Proof. unfold WithValues, append; simpl. by case_decide. Qed.

Hypothesis growcap_ge : forall old need, need <= growcap old need.

Lemma derive1_spec d lg w :
  slice_ok (heap w) (values lg) ->
  l (derive1 growcap d lg w).1 = l lg /\
  verbosity (derive1 growcap d lg w).1 = last_verbosity (verbosity lg) [d] /\
  prefix (derive1 growcap d lg w).1 = named (prefix lg) [d] /\
  fields (derive1 growcap d lg w).1 (derive1 growcap d lg w).2 =
    fields lg w ++ appended [d] /\
  slice_ok (heap (derive1 growcap d lg w).2) (values (derive1 growcap d lg w).1) /\
  keeps (heap w) (heap (derive1 growcap d lg w).2) /\
  GlobalLevel (derive1 growcap d lg w).2 = GlobalLevel w /\
  output (derive1 growcap d lg w).2 = output w.
Proof.
  intros Hok. destruct d as [v | name | kvList]; cbn [derive1].
  - destruct (V_store lg v w Hok) as (Hk & Hf & Ho).
    rewrite Hf. change (appended [DV v]) with (@nil value).
    by rewrite (right_id_L [] (++)).
  - destruct (WithName_store lg name w Hok) as (Hk & Hf & Ho).
    rewrite Hf, WithName_prefix.
    change (appended [DWithName name]) with (@nil value).
    rewrite (right_id_L [] (++)).
    split_and!; try done; unfold WithName; simpl; try done; by case_decide.
  - destruct (WithValues_store growcap lg kvList w Hok) as (Hk & Hf & Ha).
    destruct (WithValues_kept lg kvList w) as (Hl & Hv & Hp & Hg & Hout).
    rewrite Hf. change (appended [DWithValues kvList]) with (kvList ++ []).
    rewrite (right_id_L [] (++)).
    split_and!; try done. by apply WithValues_ok.
Qed.

Lemma derive_cons d ds lg w :
  derive growcap (d :: ds) lg w =
  derive growcap ds (derive1 growcap d lg w).1 (derive1 growcap d lg w).2.
Proof. simpl. by destruct (derive1 growcap d lg w). Qed.

Lemma derive_spec ds : forall lg w,
  slice_ok (heap w) (values lg) ->
  l (derive growcap ds lg w).1 = l lg /\
  verbosity (derive growcap ds lg w).1 = last_verbosity (verbosity lg) ds /\
  prefix (derive growcap ds lg w).1 = named (prefix lg) ds /\
  fields (derive growcap ds lg w).1 (derive growcap ds lg w).2 =
    fields lg w ++ appended ds /\
  slice_ok (heap (derive growcap ds lg w).2) (values (derive growcap ds lg w).1) /\
  keeps (heap w) (heap (derive growcap ds lg w).2) /\
  GlobalLevel (derive growcap ds lg w).2 = GlobalLevel w /\
  output (derive growcap ds lg w).2 = output w.
Proof.
  induction ds as [| d ds IH]; intros lg w Hok.
  - simpl. rewrite (right_id_L [] (++)). split_and!; done.
  - rewrite derive_cons.
    destruct (derive1_spec d lg w Hok)
      as (Hl & Hv & Hp & Hf & Ho & Hk & Hg & Hout).
    destruct (IH _ _ Ho) as (Hl' & Hv' & Hp' & Hf' & Ho' & Hk' & Hg' & Hout').
    rewrite Hl', Hv', Hp', Hf', Hg', Hout', Hl, Hv, Hp, Hf, Hg, Hout.
    split_and!; try done.
    + rewrite <- (assoc_L (++)). f_equal.
      change (appended (d :: ds)) with (appended [d] ++ appended ds) || idtac.
      unfold appended. cbn [mbind list_bind]. by rewrite (right_id_L [] (++)).
    + by eapply keeps_trans.
Qed.

(** X13.  The instance at the end of any chain of [V], [WithName] and
    [WithValues] calls: it has the sink of the instance the chain starts
    from, the verbosity of the last [V], the name joined from the segments in
    order, and the fields of the start followed by all the values given to
    [WithValues], in order; it is again well-formed. *)
Theorem derive_instance (ds : list derivation) (lg : logger) (w : world) :
  slice_ok (heap w) (values lg) ->
  l (derive growcap ds lg w).1 = l lg /\
  verbosity (derive growcap ds lg w).1 = last_verbosity (verbosity lg) ds /\
  prefix (derive growcap ds lg w).1 = named (prefix lg) ds /\
  fields (derive growcap ds lg w).1 (derive growcap ds lg w).2 =
    fields lg w ++ appended ds /\
  slice_ok (heap (derive growcap ds lg w).2) (values (derive growcap ds lg w).1).
Proof. intros Hok. destruct (derive_spec ds lg w Hok). tauto. Qed.

(** X14.  What a chain of derivations leaves alone: the global level, the
    output (deriving never logs), and the fields of every instance that
    was there before the chain, the start included. *)
Theorem derive_frame (ds : list derivation) (lg other : logger) (w : world) :
  slice_ok (heap w) (values lg) ->
  slice_ok (heap w) (values other) ->
  GlobalLevel (derive growcap ds lg w).2 = GlobalLevel w /\
  output (derive growcap ds lg w).2 = output w /\
  fields other (derive growcap ds lg w).2 = fields other w /\
  fields lg (derive growcap ds lg w).2 = fields lg w.
Proof.
  intros Hok Hother.
  destruct (derive_spec ds lg w Hok) as (_ & _ & _ & _ & _ & Hk & Hg & Hout).
  split_and!; try done; apply keeps_read; auto using slice_ok_allocated.
Qed.

End DeriveFacts.

(** A chain on a root: two names, a verbosity and two batches of values. *)
Lemma derive_instance_witness :
  let ds := [DWithName "srv"; DWithValues [VString "a"; VInt 1]; DV 3;
             DWithName "db"; DWithValues [VString "b"; VInt 2]; DV 1] in
  let r := derive double_or_need ds New (mkWorld InfoLevel [] []) in
  l r.1 = Stderr_Timestamp /\
  verbosity r.1 = 1%Z /\
  prefix r.1 = "srv/db" /\
  fields r.1 r.2 = [VString "a"; VInt 1; VString "b"; VInt 2] /\
  slice_ok (heap r.2) (values r.1).
Proof.
  exact (derive_instance double_or_need double_or_need_ge
           [DWithName "srv"; DWithValues [VString "a"; VInt 1]; DV 3;
            DWithName "db"; DWithValues [VString "b"; VInt 2]; DV 1]
           New (mkWorld InfoLevel [] []) (nil_slice_ok [])).
Defined.

Lemma derive_frame_witness :
  let ds := [DWithValues [VString "a"; VInt 1]; DV 3; DWithName "db"] in
  let w' := (derive double_or_need ds example_root.1 example_root.2).2 in
  GlobalLevel w' = InfoLevel /\
  output w' = [] /\
  fields example_odd.1 w' = fields example_odd.1 example_root.2 /\
  fields example_root.1 w' =
    [VString "x"; VInt 0; VString "y"; VString "z"].
Proof.
  assert (Hok : slice_ok (heap example_root.2) (values example_root.1)).
  { split; vm_compute; lia. }
  assert (Hother : slice_ok (heap example_root.2) (values example_odd.1)).
  { split; vm_compute; lia. }
  exact (derive_frame double_or_need double_or_need_ge
           [DWithValues [VString "a"; VInt 1]; DV 3; DWithName "db"]
           example_root.1 example_odd.1 example_root.2 Hok Hother).
Defined.

(** ** Logging through a derived instance *)

Section DerivedLogging.

Variable growcap : nat -> nat -> nat.

Lemma WithValues_Enabled lg kvList w :
  Enabled (WithValues growcap lg kvList w).1 (WithValues growcap lg kvList w).2 =
  Enabled lg w.
Proof.
  destruct (WithValues_kept growcap lg kvList w) as (_ & Hv & _ & Hg & _).
  by rewrite !Enabled_tier, Hv, Hg.
Qed.

Lemma WithValues_name_field lg kvList w :
  name_field (WithValues growcap lg kvList w).1 = name_field lg.
Proof.
  destruct (WithValues_kept growcap lg kvList w) as (_ & _ & Hp & _).
  unfold name_field. by rewrite Hp.
Qed.

(** X15.  Values attached with [WithValues] are logged as one sequence with the
    fields the source already holds: an enabled [Info] on the result runs
    [add] over the source's fields followed by the new values, and then over
    the call-site pairs.  When the fields and the new values are well-formed
    pairs, the entry is the one the source itself would emit had the new
    pairs been passed at the call site in front of the call's own pairs;
    when the instance is disabled neither emits. *)
Theorem WithValues_then_Info (lg : logger) (kvList : list value)
    (msg : string) (keysAndVals : list value) (w : world) :
  slice_ok (heap w) (values lg) ->
  (Enabled lg w = true ->
   output <$> Info (WithValues growcap lg kvList w).1 msg keysAndVals
                (WithValues growcap lg kvList w).2 =
   Some (output w ++
         [mkEntry (l lg) (tier_level (tier (verbosity lg)))
            ([CInt "verbosity" (verbosity lg)] ++ name_field lg ++
             encoded (fields lg w ++ kvList) ++ encoded keysAndVals)
            msg])) /\
  (forall acc kv1 kv2,
      fields lg w = flat acc ->
      kvList = flat kv1 ->
      keysAndVals = flat kv2 ->
      output <$> Info (WithValues growcap lg kvList w).1 msg keysAndVals
                   (WithValues growcap lg kvList w).2 =
      output <$> Info lg msg (kvList ++ keysAndVals) w).
Proof.
  intros Hok.
  destruct (WithValues_store growcap lg kvList w Hok) as (_ & Hf & _).
  destruct (WithValues_kept growcap lg kvList w) as (Hl & Hv & _ & _ & Hout).
  assert (Hen : Enabled lg w = true ->
    output <$> Info (WithValues growcap lg kvList w).1 msg keysAndVals
                 (WithValues growcap lg kvList w).2 =
    Some (output w ++
          [mkEntry (l lg) (tier_level (tier (verbosity lg)))
             ([CInt "verbosity" (verbosity lg)] ++ name_field lg ++
              encoded (fields lg w ++ kvList) ++ encoded keysAndVals)
             msg])).
  { intros Hen. rewrite <- (WithValues_Enabled lg kvList w) in Hen.
    rewrite (Info_enabled _ _ _ _ Hen). simpl.
    by rewrite Hf, Hl, Hv, Hout, WithValues_name_field. }
  split; [exact Hen |].
  intros acc kv1 kv2 Hacc -> ->.
  destruct (Enabled lg w) eqn:Hlg.
  - rewrite Hen by done. rewrite (Info_enabled _ _ _ _ Hlg). simpl.
    rewrite Hacc, <- !flat_app, !encoded_flat. unfold pair_fields.
    by rewrite !fmap_app, !(assoc_L (++)).
  - rewrite (Info_disabled lg _ _ _ Hlg).
    rewrite <- (WithValues_Enabled lg (flat kv1) w) in Hlg.
    rewrite (Info_disabled _ _ _ _ Hlg). simpl. by rewrite Hout.
Qed.

End DerivedLogging.

Lemma WithValues_then_Info_witness :
  output <$> Info (WithValues double_or_need New [VString "req"; VInt 7]
                     (mkWorld InfoLevel [] [])).1
               "done" [VString "ms"; VInt 12]
               (WithValues double_or_need New [VString "req"; VInt 7]
                  (mkWorld InfoLevel [] [])).2 =
  output <$> Info New "done"
               [VString "req"; VInt 7; VString "ms"; VInt 12]
               (mkWorld InfoLevel [] []).
Proof.
  exact (proj2 (WithValues_then_Info double_or_need New
                  [VString "req"; VInt 7] "done" [VString "ms"; VInt 12]
                  (mkWorld InfoLevel [] []) (nil_slice_ok []))
               [] [("req", VInt 7)] [("ms", VInt 12)]
               eq_refl eq_refl eq_refl).
Defined.

(** ** The revision in [src/zerologr.go], continued *)

(** X16.  [Enabled] of [src/zerologr.go]: INFO below 2, DEBUG from 2 to 6, TRACE
    from 7 on.  It answers differently from the [Enabled] of the other
    revision in exactly one situation: level 7 with the global minimum level
    at Debug, where it answers false. *)
Theorem ZerologrGo_Enabled_thresholds (lg : logger) (w : world) :
  ((verbosity lg < 2)%Z ->
   (ZerologrGo.Enabled lg w = true <-> (GlobalLevel w <= InfoLevel)%Z)) /\
  ((2 <= verbosity lg < 7)%Z ->
   (ZerologrGo.Enabled lg w = true <-> (GlobalLevel w <= DebugLevel)%Z)) /\
  ((7 <= verbosity lg)%Z ->
   (ZerologrGo.Enabled lg w = true <-> (GlobalLevel w <= TraceLevel)%Z)) /\
  (ZerologrGo.Enabled lg w <> Enabled lg w <->
   verbosity lg = 7%Z /\ GlobalLevel w = DebugLevel) /\
  (verbosity lg = 7%Z -> GlobalLevel w = DebugLevel ->
   ZerologrGo.Enabled lg w = false /\ Enabled lg w = true).
Proof.
  unfold ZerologrGo.Enabled, Enabled, debugVerbosity, traceVerbosity,
    InfoLevel, DebugLevel, TraceLevel.
  split_and!.
  - intros Hv. repeat case_decide; split; intros; first [done | lia].
  - intros Hv. repeat case_decide; split; intros; first [done | lia].
  - intros Hv. repeat case_decide; split; intros; first [done | lia].
  - split.
    + intros Hne. repeat case_decide; first [done | lia].
    + intros [Hv Hg]. rewrite Hv, Hg. simpl. done.
  - intros Hv Hg. rewrite Hv, Hg. simpl. done.
Qed.

Lemma ZerologrGo_Enabled_thresholds_witness :
  ZerologrGo.Enabled (mkLogger Stderr_Timestamp 7 "" nil_slice)
    (mkWorld DebugLevel [] []) = false /\
  Enabled (mkLogger Stderr_Timestamp 7 "" nil_slice)
    (mkWorld DebugLevel [] []) = true.
Proof.
  exact (proj2 (proj2 (proj2 (proj2
           (ZerologrGo_Enabled_thresholds
              (mkLogger Stderr_Timestamp 7 "" nil_slice)
              (mkWorld DebugLevel [] [])))))
           eq_refl eq_refl).
Defined.

(** X17.  [Info] of [src/zerologr.go] never panics and adds at most one entry.
    The entry is always built with the Info builder, whatever the level of
    the instance, carries the level in the numeric field ["level"], then
    the name, the accumulated fields and the call-site pairs as in the other
    revision; it is emitted iff [Enabled] of that file answers true, and the
    Info level it bears is then at or above the global minimum. *)
Theorem ZerologrGo_Info_entry (lg : logger) (msg : string)
    (keysAndVals : list value) (w : world) :
  (ZerologrGo.Enabled lg w = true ->
   ZerologrGo.Info lg msg keysAndVals w =
   Some (mkWorld (GlobalLevel w) (heap w)
           (output w ++
            [mkEntry (l lg) InfoLevel
               ([CInt "level" (verbosity lg)] ++
                (if decide (prefix lg = "") then []
                 else [CStr "name" (prefix lg)]) ++
                encoded (fields lg w) ++ encoded keysAndVals)
               msg])) /\
   (GlobalLevel w <= InfoLevel)%Z) /\
  (ZerologrGo.Enabled lg w = false ->
   ZerologrGo.Info lg msg keysAndVals w = Some w).
Proof.
  split.
  - intros Hen. split; [by apply ZerologrGo_Info_enabled |].
    revert Hen. unfold ZerologrGo.Enabled, InfoLevel, DebugLevel, TraceLevel.
    repeat case_decide; intros; first [done | lia].
  - apply ZerologrGo_Info_disabled.
Qed.

(** Level 3 at global level Debug: enabled as DEBUG, emitted at Info. *)
Lemma ZerologrGo_Info_entry_witness :
  ZerologrGo.Info (mkLogger Stderr_Timestamp 3 "app" nil_slice) "hello"
    [VString "a"; VInt 1] (mkWorld DebugLevel [] []) =
  Some (mkWorld DebugLevel []
          [mkEntry Stderr_Timestamp InfoLevel
             [CInt "level" 3; CStr "name" "app"; CInterface "a" (VInt 1)]
             "hello"]).
Proof.
  exact (proj1 (proj1 (ZerologrGo_Info_entry
                         (mkLogger Stderr_Timestamp 3 "app" nil_slice) "hello"
                         [VString "a"; VInt 1] (mkWorld DebugLevel [] []))
                  eq_refl)).
Defined.

(** ** What an entry can hold *)



